(** * django-fluent-contents: content-item trees, media merging and the
    placeholder bookkeeping of the admin formset

    A shallow embedding of the algorithmic fragments of
    [fluent_contents/models/__init__.py] and
    [fluent_contents/admin/contentitems.py].  Python objects that are
    mutated or compared by identity live in explicit stores; exceptions
    are values of a sum type. *)

From Stdlib Require Import ZArith String.
From stdpp Require Import base functions list gmap strings sorting.

Local Open Scope Z_scope.

(** * The embedding *)

(** ** [list.sort(key=...)]

    Python's [list.sort] is stable and ascending.  A stable sort is
    determined by its input and its key, so it is modelled by stable
    insertion: an element goes in front of the first element whose key is
    not smaller. *)

Section list_sort.
Context {A : Type} (key : A → Z).

Fixpoint sort_insert (x : A) (l : list A) : list A :=
  match l with
  | [] => [x]
  | y :: l' =>
      if bool_decide (key x ≤ key y) then x :: y :: l'
      else y :: sort_insert x l'
  end.

Definition list_sort (l : list A) : list A := foldr sort_insert [] l.

Definition key_le (x y : A) : Prop := key x ≤ key y.

End list_sort.

(** ** Rows of the [Placeholder] model

    The model class lives in [fluent_contents/models/db.py]; the code
    below reads its primary key and its [slot] column only. *)

Record Placeholder := mkPlaceholder {
  pk : Z;
  slot : string;
}.

Global Instance Placeholder_eq_dec : EqDecision Placeholder.
Proof. solve_decision. Defined.

(** ** [ContentItemTree] and [ContentItemTree.from_list] *)

Module Tree.

(** Content items are Python objects: a reference names one, and two
    entries of a list may be the same object. *)
Definition ref := nat.

(** [class ContentItemTree(list)]: the list contents and the three
    attributes [__init__] sets. *)
Record ContentItemTree := mkTree {
  tree_items : list ref;
  flat_items : option (list ref);
  placeholder : option Placeholder;
  parent_item : option ref;
}.

(** The attributes of a content item that [from_list] reads, and the
    tree that [_set_children] leaves on it ([None]: never set). *)
Record ContentItem := mkItem {
  id : Z;
  parent_item_id : option Z;
  sort_order : Z;
  _children : option ContentItemTree;
}.

Definition heap := ref → ContentItem.

(** Modelled from the spec: [ContentItem._set_children] is defined in
    [fluent_contents/models/db.py], which is not part of the sources
    read here; it attaches the given tree to the item as its children. *)
Definition _set_children (item : ref) (children : ContentItemTree) (h : heap) : heap :=
  <[item := {| id := id (h item);
               parent_item_id := parent_item_id (h item);
               sort_order := sort_order (h item);
               _children := Some children |}]> h.

(** [KeyError(key)]; the key of [parents[top_parent_id]] may be [None]. *)
Inductive exn := KeyError (key : option Z).

(** [parents] is an [OrderedDict] from parent id to a list of items:
    an association list in insertion order, one entry per key. *)
Definition odict := list (option Z * list ref).

Fixpoint od_get (k : option Z) (d : odict) : option (list ref) :=
  match d with
  | [] => None
  | (k', v) :: d' => if decide (k' = k) then Some v else od_get k d'
  end.

(** [parents.setdefault(k, []).append(item)] *)
Fixpoint setdefault_append (k : option Z) (item : ref) (d : odict) : odict :=
  match d with
  | [] => [(k, [item])]
  | (k', v) :: d' =>
      if decide (k' = k) then (k', v ++ [item]) :: d'
      else (k', v) :: setdefault_append k item d'
  end.

(** The first loop of [from_list]: group by [parent_item_id], and index
    by [id] (a later item with the same id replaces an earlier one). *)
Definition index_step (h : heap) (acc : odict * gmap Z ref) (item : ref)
  : odict * gmap Z ref :=
  (setdefault_append (parent_item_id (h item)) item acc.1,
   <[id (h item) := item]> acc.2).

Definition index_items (h : heap) (items : list ref) : odict * gmap Z ref :=
  foldl (index_step h) ([], ∅) items.

(** The second loop: every group whose key is not [None] and differs
    from [top_parent_id] is sorted and handed to its parent item.  A
    missing parent raises [KeyError]; what was attached before stays. *)
Fixpoint set_all_children (ph : option Placeholder) (lookup : gmap Z ref)
    (top_parent_id : option Z) (parents : odict) (h : heap) : heap * option exn :=
  match parents with
  | [] => (h, None)
  | (parent_id, children) :: rest =>
      match parent_id with
      | Some pid =>
          if decide (parent_id ≠ top_parent_id) then
            match lookup !! pid with
            | None => (h, Some (KeyError parent_id))
            | Some sub_parent_item =>
                let children := list_sort (λ r, sort_order (h r)) children in
                set_all_children ph lookup top_parent_id rest
                  (_set_children sub_parent_item
                     (mkTree children None ph (Some sub_parent_item)) h)
            end
          else set_all_children ph lookup top_parent_id rest h
      | None => set_all_children ph lookup top_parent_id rest h
      end
  end.

Definition from_list (items : list ref) (top_parent_id : option Z)
    (ph : option Placeholder) (parent : option ref) (h : heap)
  : heap * (exn + ContentItemTree) :=
  match items with
  | [] => (h, inr (mkTree [] None ph parent))
  | _ =>
      let '(parents, lookup) := index_items h items in
      match set_all_children ph lookup top_parent_id parents h with
      | (h', Some e) => (h', inl e)
      | (h', None) =>
          match od_get top_parent_id parents with
          | None => (h', inl (KeyError top_parent_id))
          | Some root_items =>
              (h', inr (mkTree (list_sort (λ r, sort_order (h' r)) root_items)
                          (Some items) ph parent))
          end
      end
  end.

(** *** What the claims speak about *)

(** The items of the list whose [parent_item_id] is [k], in list order. *)
Definition group (h : heap) (items : list ref) (k : option Z) : list ref :=
  filter (λ r, parent_item_id (h r) = k) items.

(** The item [lookup[k]] resolves to: the last of the list with id [k]. *)
Definition item_with_id (h : heap) (items : list ref) (k : Z) : option ref :=
  last (filter (λ r, id (h r) = k) items).

(** The precondition: a non-empty list has an item directly under
    [top_parent_id], and every other parent id that is given is the id
    of an item of the list. *)
Definition from_list_pre (h : heap) (items : list ref) (top_parent_id : option Z) : Prop :=
  items = [] ∨
  (Exists (λ r, parent_item_id (h r) = top_parent_id) items ∧
   Forall (λ r, ∀ k, parent_item_id (h r) = Some k → Some k ≠ top_parent_id →
                Exists (λ j, id (h j) = k) items) items).

(** The identifying columns of every item are the same in both stores. *)
Definition same_columns (h h' : heap) : Prop :=
  ∀ r, id (h' r) = id (h r) ∧
       parent_item_id (h' r) = parent_item_id (h r) ∧
       sort_order (h' r) = sort_order (h r).

(** [l] is the group of key [k], sorted ascending by [sort_order]:
    the same items, in non-decreasing order, items of equal
    [sort_order] in list order. *)
Definition sorted_group (h : heap) (items : list ref) (k : option Z) (l : list ref) : Prop :=
  l ≡ₚ group h items k ∧
  StronglySorted (key_le (λ r, sort_order (h r))) l ∧
  ∀ o, filter (λ r, sort_order (h r) = o) l
       = filter (λ r, sort_order (h r) = o) (group h items k).

(** Three items: 0 is a root, 1 and 2 are its children, given in the
    opposite order of their [sort_order]. *)
Definition h_family : heap := λ r,
  match r with
  | 0%nat => mkItem 10 None 0 None
  | 1%nat => mkItem 11 (Some 10) 5 None
  | _ => mkItem 12 (Some 10) 3 None
  end.

End Tree.

(** ** [ImmutableMedia] and [ContentItemOutput] *)

Module Media.

(** [django.forms.Media] and its subclass [ImmutableMedia]. *)
Inductive media_class := PlainMedia | ImmutableMediaClass.

Global Instance media_class_eq_dec : EqDecision media_class.
Proof. solve_decision. Defined.

(** A media object: its class, the [_css] dict (medium to list of
    paths) and the [_js] list. *)
Record MediaObj := mkMedia {
  cls : media_class;
  _css : gmap string (list string);
  _js : list string;
}.

(** Media objects are compared by identity ([is]) and rebuilt rather than
    changed, so they live in a store: the cells below [next] are the
    objects constructed so far. *)
Definition addr := nat.

Record heap := mkHeap {
  next : addr;
  cell : addr → MediaObj;
}.

Definition alloc (o : MediaObj) (h : heap) : heap * addr :=
  (mkHeap (S (next h)) (<[next h := o]> (cell h)), next h).

Definition write (a : addr) (o : MediaObj) (h : heap) : heap :=
  mkHeap (next h) (<[a := o]> (cell h)).

Inductive exn := RuntimeError (msg : string).

(** *** The framework's [Media]

    [django.forms.Media] is not part of this repository.  It is modelled
    after [django/forms/widgets.py] of Django 1.x, the releases in which
    [_css] is a dict and [_js] a list, as the code here requires. *)

(** One path at a time: [if path not in l: l.append(path)]. *)
Definition paths_add (l paths : list string) : list string :=
  foldl (λ acc p, if decide (p ∈ acc) then acc else acc ++ [p]) l paths.

(** [Media.add_js(self, data)] on the list [_js]. *)
Definition js_add (js data : list string) : list string := paths_add js data.

(** [Media.add_css(self, data)] on the dict [_css]: a medium of [data]
    with no path leaves the dict as it is. *)
Definition css_add_medium (old data : option (list string)) : option (list string) :=
  match data with
  | None => old
  | Some paths =>
      if decide (paths = []) then old else Some (paths_add (default [] old) paths)
  end.

Definition css_add (css data : gmap string (list string)) : gmap string (list string) :=
  merge css_add_medium css data.

(** [Media()] *)
Definition Media_new (h : heap) : heap * addr := alloc (mkMedia PlainMedia ∅ []) h.

(** [Media.__add__(self, other)]: a new [Media] that receives the css
    and the js of [self], then of [other]. *)
Definition Media_add (self other : addr) (h : heap) : heap * addr :=
  let s := cell h self in
  let o := cell h other in
  alloc (mkMedia PlainMedia (css_add (css_add ∅ (_css s)) (_css o))
                            (js_add (js_add [] (_js s)) (_js o))) h.

(** *** [class ImmutableMedia(Media)] *)

(** [ImmutableMedia.empty_instance = ImmutableMedia()] is the first
    object the module constructs. *)
Definition empty_instance : addr := 0%nat.

(** The constructor of [ImmutableMedia], with its keyword arguments
    [css] and [js] ([None]: not given). *)
Definition ImmutableMedia_new (css : option (gmap string (list string)))
    (js : option (list string)) (h : heap) : heap * addr :=
  alloc (mkMedia ImmutableMediaClass
           (match css with Some d => css_add ∅ d | None => ∅ end)
           (match js with Some d => js_add [] d | None => [] end)) h.

Definition heap0 : heap :=
  (ImmutableMedia_new None None (mkHeap 0%nat (λ _, mkMedia PlainMedia ∅ []))).1.

Definition add_css (self : addr) (data : gmap string (list string)) (h : heap)
  : heap * (exn + unit) :=
  (h, inl (RuntimeError "Immutable media object")).

Definition add_js (self : addr) (data : list string) (h : heap)
  : heap * (exn + unit) :=
  (h, inl (RuntimeError "Immutable media object")).

(** [ImmutableMedia.__add__(self, other)]: the shared empty instance
    when [other] is that object, else a new [Media] with a copy of the
    dict and of the list of [other].  [self] is not read.  (The copy of
    the dict is shallow; nothing here writes to the lists it shares.) *)
Definition __add__ (self other : addr) (h : heap) : heap * addr :=
  if decide (other = empty_instance) then (h, other)
  else
    let o := cell h other in
    alloc (mkMedia PlainMedia (_css o) (_js o)) h.

(** [a + b]: Python calls [type(a).__add__(a, b)]; neither class
    defines [__radd__]. *)
Definition py_add (a b : addr) (h : heap) : heap * addr :=
  match cls (cell h a) with
  | PlainMedia => Media_add a b h
  | ImmutableMediaClass => __add__ a b h
  end.

(** *** [class ContentItemOutput(SafeData)] *)

(** [DEFAULT_TIMEOUT] is a sentinel object; a timeout is otherwise a
    number of seconds or [None]. *)
Inductive timeout := DEFAULT_TIMEOUT | Seconds (n : Z) | NoTimeout.

(** [html] holds a safe string; [str(self.html)] is its text, and
    [mark_safe] marks a text without changing it. *)
Record ContentItemOutput := mkOutput {
  html : string;
  media : addr;
  cacheable : bool;
  cache_timeout : timeout;
}.

Definition mark_safe (s : string) : string := s.

Definition state : Type := string * gmap string (list string) * list string.

Definition __getstate__ (self : ContentItemOutput) (h : heap) : state :=
  (html self, _css (cell h (media self)), _js (cell h (media self))).

(** [__setstate__] fills a new object.  [not css and not js]: both are
    empty. *)
Definition __setstate__ (st : state) (h : heap) : heap * ContentItemOutput :=
  let '(html_str, css, js) := st in
  if decide (css = ∅ ∧ js = []) then
    (h, mkOutput (mark_safe html_str) empty_instance true DEFAULT_TIMEOUT)
  else
    let '(h1, m) := ImmutableMedia_new None None h in
    let h2 := write m (mkMedia (cls (cell h1 m)) css (_js (cell h1 m))) h1 in
    let h3 := write m (mkMedia (cls (cell h2 m)) (_css (cell h2 m)) js) h2 in
    (h3, mkOutput (mark_safe html_str) m true DEFAULT_TIMEOUT).

Definition set_media (m : addr) (self : ContentItemOutput) : ContentItemOutput :=
  mkOutput (html self) m (cacheable self) (cache_timeout self).

Definition _insert_media (m : addr) (self : ContentItemOutput) (h : heap)
  : heap * ContentItemOutput :=
  if decide (media self = empty_instance) then
    let '(h1, e) := Media_new h in
    let '(h2, r) := py_add e m h1 in
    (h2, set_media r self)
  else
    let '(h1, r) := py_add m (media self) h in
    (h1, set_media r self).

(** *** What the claims speak about *)

Definition css_file (o : MediaObj) (medium path : string) : Prop :=
  ∃ l, _css o !! medium = Some l ∧ path ∈ l.

Definition js_file (o : MediaObj) (path : string) : Prop := path ∈ _js o.

(** Every file of [a] is a file of [b]. *)
Definition files_within (a b : MediaObj) : Prop :=
  (∀ medium path, css_file a medium path → css_file b medium path) ∧
  (∀ path, js_file a path → js_file b path).

(** Every file of [r] is a file of [a] or of [b]. *)
Definition files_from (r a b : MediaObj) : Prop :=
  (∀ medium path, css_file r medium path →
                  css_file a medium path ∨ css_file b medium path) ∧
  (∀ path, js_file r path → js_file a path ∨ js_file b path).

(** The store as the module leaves it and as every operation keeps it:
    the shared empty instance exists and is empty. *)
Definition heap_ok (h : heap) : Prop :=
  (0 < next h)%nat ∧
  cell h empty_instance = mkMedia ImmutableMediaClass ∅ [].

(** Sample objects: after the empty instance, a plain [Media] with one
    script and one style sheet, and an [ImmutableMedia] built with a
    script of its own. *)
Definition h_sample : heap :=
  let '(h1, _) := alloc (mkMedia PlainMedia {[ "all" := ["site.css"] ]} ["site.js"]) heap0 in
  let '(h2, _) := ImmutableMedia_new None (Some ["gist.js"]) h1 in
  h2.

(** A media object as [Media.add_css] and [Media.add_js] build it: no
    path twice in a list, and no medium with an empty list. *)
Definition well_formed (o : MediaObj) : Prop :=
  NoDup (_js o) ∧
  ∀ medium l, _css o !! medium = Some l → l ≠ [] ∧ NoDup l.

(** *** [ContentItemOutput.__init__] *)

(** The [html] argument: a plain string, or one already marked safe. *)
Inductive html_arg := PlainText (s : string) | SafeText (s : string).

Section output_init.
(** [django.utils.html.escape], which is not part of this repository:
    a parameter. *)
Context (escape : string → string).

(** [conditional_escape]: a safe string is kept, any other is escaped. *)
Definition conditional_escape (x : html_arg) : string :=
  match x with
  | PlainText s => escape s
  | SafeText s => s
  end.

(** [cache_timeout or DEFAULT_TIMEOUT]: [0] and [None] are falsy, the
    sentinel object is not. *)
Definition timeout_or_default (t : timeout) : timeout :=
  match t with
  | Seconds n => if decide (n = 0) then DEFAULT_TIMEOUT else Seconds n
  | NoTimeout => DEFAULT_TIMEOUT
  | DEFAULT_TIMEOUT => DEFAULT_TIMEOUT
  end.

(** [__init__(self, html, media=None, cacheable=True,
    cache_timeout=DEFAULT_TIMEOUT)]; a media object is always truthy, so
    [media or ImmutableMedia.empty_instance] replaces [None] only. *)
Definition __init__ (html : html_arg) (media : option addr) (cacheable : bool)
    (cache_timeout : timeout) : ContentItemOutput :=
  mkOutput (conditional_escape html)
           (match media with Some m => m | None => empty_instance end)
           cacheable
           (timeout_or_default cache_timeout).

End output_init.

(** [_insert_media] called once for each media object of a list. *)
Definition insert_all (ms : list addr) (self : ContentItemOutput) (h : heap)
  : heap * ContentItemOutput :=
  foldl (λ '(h, o) m, _insert_media m o h) (h, self) ms.

(** *** The media of the admin classes *)

(** [BaseContentItemAdminOptions.media]: the media of the base class
    and, when the class has a plugin, [media += self.plugin.media],
    which for media objects is [media = media + self.plugin.media]. *)
Definition admin_options_media (super_media : addr) (plugin_media : option addr)
    (h : heap) : heap * addr :=
  match plugin_media with
  | Some pm => py_add super_media pm h
  | None => (h, super_media)
  end.

Section parent_inline_media.
(** [add_media(dest, media)] comes from [fluent_contents/polymorphic/
    formsets/utils.py], which is not part of the sources read here: a
    parameter, as what it makes of [dest]. *)
Context (add_media : MediaObj → MediaObj → MediaObj).

(** [PolymorphicParentInlineModelAdmin.media]: a new [Media] that gets
    the base media and then the media of each child inline instance
    whose [_css] and whose [_js] both differ from the base media's. *)
Definition parent_inline_media (base_media : MediaObj) (child_medias : list MediaObj)
  : MediaObj :=
  foldl (λ all_media child_media,
           if decide (_css child_media ≠ _css base_media ∧
                      _js child_media ≠ _js base_media)
           then add_media all_media child_media
           else all_media)
        (add_media (mkMedia PlainMedia ∅ []) base_media)
        child_medias.

End parent_inline_media.

(** The same plain [Media], and then an output restored from its
    pickled state, as the cache returns it: its media is an
    [ImmutableMedia] that holds the pickled script. *)
Definition h_plain : heap :=
  (alloc (mkMedia PlainMedia {[ "all" := ["site.css"] ]} ["site.js"]) heap0).1.

Definition cached_state : state := ("<b>gist</b>", ∅, ["gist.js"]).

Definition h_restored : heap := (__setstate__ cached_state h_plain).1.

Definition o_restored : ContentItemOutput := (__setstate__ cached_state h_plain).2.

(** An output whose media is the plain [Media] at address 1. *)
Definition o_page : ContentItemOutput :=
  mkOutput "<p>page</p>" 1%nat false (Seconds 60).

End Media.

(** ** [BaseContentItemFormSet]: linking a row to its placeholder *)

Module Formset.

(** [form.instance], the content item row a form edits.  Assigning
    [instance.placeholder] stores the object and, as Django's foreign
    keys do, its primary key in [placeholder_id]. *)
Record ContentItemRow := mkRow {
  placeholder : option Placeholder;
  placeholder_id : option Z;
  language_code : string;
}.

Definition set_placeholder (p : option Placeholder) (row : ContentItemRow) : ContentItemRow :=
  mkRow p (pk <$> p) (language_code row).

Definition set_language_code (c : string) (row : ContentItemRow) : ContentItemRow :=
  mkRow (placeholder row) (placeholder_id row) c.

(** A validated form: the two entries of [cleaned_data] that the
    formset reads, and the instance. *)
Record Form := mkForm {
  cleaned_placeholder_slot : string;
  cleaned_placeholder : option Placeholder;
  instance : ContentItemRow;
}.

(** The formset: the placeholders of its parent instance, as
    [Placeholder.objects.parent(self.instance)] selects them, and the
    attributes [__init__] sets. *)
Record FormSet := mkFormSet {
  parent_placeholders : list Placeholder;
  current_language : string;
  _deleted_placeholders : list Z;
  _placeholders_by_slot : gmap string Placeholder;
}.

(** [__init__] leaves no placeholder deleted and the cache empty. *)
Definition init (rows : list Placeholder) (lang : string) : FormSet :=
  mkFormSet rows lang [] ∅.

(** The exceptions of [QuerySet.get]. *)
Inductive exn := DoesNotExist | MultipleObjectsReturned.

(** [queryset.get(slot=s)]: the one row with that slot. *)
Definition get_by_slot (rows : list Placeholder) (s : string) : exn + Placeholder :=
  match filter (λ p, slot p = s) rows with
  | [] => inl DoesNotExist
  | [p] => inr p
  | _ => inl MultipleObjectsReturned
  end.

(** The [try ... except KeyError] of [_set_placeholder_id]: the cached
    placeholder of the slot, or else the one the query finds, which is
    then cached. *)
Definition desired_placeholder (form_slot : string) (fs : FormSet)
  : exn + (FormSet * Placeholder) :=
  match _placeholders_by_slot fs !! form_slot with
  | Some p => inr (fs, p)
  | None =>
      match get_by_slot (parent_placeholders fs) form_slot with
      | inl e => inl e
      | inr p =>
          inr (mkFormSet (parent_placeholders fs) (current_language fs)
                 (_deleted_placeholders fs)
                 (<[form_slot := p]> (_placeholders_by_slot fs)), p)
      end
  end.

Definition assign (p : option Placeholder) (form : Form) : Form :=
  mkForm (cleaned_placeholder_slot form) p (set_placeholder p (instance form)).

(** [form.instance.placeholder_id in self._deleted_placeholders] *)
Definition in_deleted (row : ContentItemRow) (fs : FormSet) : Prop :=
  match placeholder_id row with
  | Some i => i ∈ _deleted_placeholders fs
  | None => False
  end.

Global Instance in_deleted_dec row fs : Decision (in_deleted row fs).
Proof. unfold in_deleted. destruct (placeholder_id row); apply _. Defined.

(** [not form_placeholder or form_placeholder.slot != form_slot] *)
Definition needs_fetch (form : Form) : Prop :=
  match cleaned_placeholder form with
  | Some p => slot p ≠ cleaned_placeholder_slot form
  | None => True
  end.

Global Instance needs_fetch_dec form : Decision (needs_fetch form).
Proof. unfold needs_fetch. destruct (cleaned_placeholder form); apply _. Defined.

Definition _set_placeholder_id (form : Form) (fs : FormSet) : exn + (FormSet * Form) :=
  let form_slot := cleaned_placeholder_slot form in
  if decide (form_slot = "") then inr (fs, form)
  else if decide (needs_fetch form) then
    match desired_placeholder form_slot fs with
    | inl e => inl e
    | inr (fs', desired) => inr (fs', assign (Some desired) form)
    end
  else if decide (in_deleted (instance form) fs) then
    inr (fs, assign None form)
  else inr (fs, form).

(** Modelled from the spec: [BasePolymorphicGenericInlineFormSet.save_new]
    is defined in [fluent_contents/polymorphic/formsets], which is not
    part of the sources read here.  Called with [commit=False] it hands
    back [form.instance], the row that is about to be saved. *)
Definition super_save_new (form : Form) : ContentItemRow := instance form.

(** [instance.save()]: the rows written so far are kept in a list. *)
Definition database := list ContentItemRow.

(** [save_new]: the returned instance is [form.instance] itself, so the
    language code shows on the form as well. *)
Definition save_new (form : Form) (commit : bool) (fs : FormSet) (db : database)
  : exn + (FormSet * Form * database) :=
  match _set_placeholder_id form fs with
  | inl e => inl e
  | inr (fs', form') =>
      let row := set_language_code (current_language fs') (super_save_new form') in
      let form'' := mkForm (cleaned_placeholder_slot form') (cleaned_placeholder form') row in
      inr (fs', form'', if commit then db ++ [row] else db)
  end.

(** [save_existing]: [form.save(commit=commit)] returns [form.instance]
    and writes it when [commit] is set. *)
Definition save_existing (form : Form) (commit : bool) (fs : FormSet) (db : database)
  : exn + (FormSet * Form * database) :=
  if commit then
    match _set_placeholder_id form fs with
    | inl e => inl e
    | inr (fs', form') => inr (fs', form', db ++ [instance form'])
    end
  else inr (fs, form, db).

(** *** What the claim speaks about *)

(** The cache holds placeholders of the parent, each under its slot. *)
Definition cache_ok (fs : FormSet) : Prop :=
  ∀ s p, _placeholders_by_slot fs !! s = Some p →
         slot p = s ∧ p ∈ parent_placeholders fs.

(** The row of [form'] is attributed as the three cases say, [form]
    being the form before the save. *)
Definition attributed (fs : FormSet) (form form' : Form) : Prop :=
  let s := cleaned_placeholder_slot form in
  if decide (needs_fetch form) then
    ∃ p, p ∈ parent_placeholders fs ∧ slot p = s ∧
         cleaned_placeholder form' = Some p ∧
         placeholder (instance form') = Some p ∧
         placeholder_id (instance form') = Some (pk p)
  else if decide (in_deleted (instance form) fs) then
    cleaned_placeholder form' = None ∧
    placeholder (instance form') = None ∧
    placeholder_id (instance form') = None
  else
    cleaned_placeholder form' = cleaned_placeholder form ∧
    placeholder (instance form') = placeholder (instance form) ∧
    placeholder_id (instance form') = placeholder_id (instance form).

(** The placeholder of the slot can be found when it is needed. *)
Definition resolvable (fs : FormSet) (form : Form) : Prop :=
  needs_fetch form →
  is_Some (_placeholders_by_slot fs !! cleaned_placeholder_slot form) ∨
  ∃ p, get_by_slot (parent_placeholders fs) (cleaned_placeholder_slot form) = inr p.

(** The calls a formset makes while it saves its forms, one per form,
    in form order; an exception ends the save. *)
Inductive action :=
  | SaveNew (form : Form) (commit : bool)
  | SaveExisting (form : Form) (commit : bool).

Definition commits (a : action) : bool :=
  match a with SaveNew _ c => c | SaveExisting _ c => c end.

Fixpoint save_all (acts : list action) (fs : FormSet) (db : database)
  : exn + (FormSet * database) :=
  match acts with
  | [] => inr (fs, db)
  | a :: rest =>
      match (match a with
             | SaveNew form commit => save_new form commit fs db
             | SaveExisting form commit => save_existing form commit fs db
             end) with
      | inl e => inl e
      | inr (fs', _, db') => save_all rest fs' db'
      end
  end.

(** A page with a main and a sidebar placeholder; the sidebar one has
    just been deleted. *)
Definition p_main : Placeholder := mkPlaceholder 1 "main".
Definition p_side : Placeholder := mkPlaceholder 2 "sidebar".

Definition fs_page : FormSet :=
  mkFormSet [p_main; p_side] "en" [2] ∅.

(** A new row for the main slot, with no placeholder selected yet. *)
Definition form_new : Form :=
  mkForm "main" None (mkRow None None "").

(** A row for a slot the page has no placeholder for. *)
Definition form_unknown : Form :=
  mkForm "footer" None (mkRow None None "").

End Formset.

(** ** [BaseContentItemFormSet.get_form_class]: the order of the fields *)

Module FormClass.

(** [BASE_FIELDS], the names the module documents as the base fields in
    [ContentItemForm]. *)
Definition BASE_FIELDS : list string :=
  ["polymorphic_ctype"; "placeholder"; "placeholder_slot";
   "parent_item"; "parent_item_uid"; "sort_order"].

Inductive exn := KeyError (key : string).

Section fields.
(** Field objects are opaque here. *)
Context {Field : Type}.

(** [base_fields] is an [OrderedDict] from field name to field object:
    the pairs in insertion order, a name at most once. *)
Definition odict := list (string * Field).

Definition keys (d : odict) : list string := d.*1.

Fixpoint od_get (k : string) (d : odict) : option Field :=
  match d with
  | [] => None
  | (k', v) :: d' => if decide (k' = k) then Some v else od_get k d'
  end.

(** [d[k] = v]: a known name keeps its place. *)
Fixpoint od_set (k : string) (v : Field) (d : odict) : odict :=
  match d with
  | [] => [(k, v)]
  | (k', v') :: d' =>
      if decide (k' = k) then (k', v) :: d' else (k', v') :: od_set k v d'
  end.

(** [OrderedDict(pairs)] *)
Definition od_of_pairs (pairs : list (string * Field)) : odict :=
  foldl (λ d kv, od_set kv.1 kv.2 d) [] pairs.

(** The generator [((k, base_fields[k]) for k in field_order)]: the
    first name that is missing raises [KeyError]. *)
Fixpoint pairs_in_order (field_order : list string) (base_fields : odict)
  : exn + list (string * Field) :=
  match field_order with
  | [] => inr []
  | k :: rest =>
      match od_get k base_fields with
      | None => inl (KeyError k)
      | Some v =>
          match pairs_in_order rest base_fields with
          | inl e => inl e
          | inr l => inr ((k, v) :: l)
          end
      end
  end.

(** [get_form_class], from the form that the base class generated on:
    [ContentItemForm_base_fields] stands for
    [ContentItemForm.base_fields] and [form_base_fields] for
    [form.base_fields]; the result is the new [form.base_fields]. *)
Definition get_form_class (ContentItemForm_base_fields form_base_fields : odict)
  : exn + odict :=
  let first_fields := keys ContentItemForm_base_fields in
  let field_order :=
    first_fields ++ filter (λ f, f ∉ first_fields) (keys form_base_fields) in
  match pairs_in_order field_order form_base_fields with
  | inl e => inl e
  | inr pairs => inr (od_of_pairs pairs)
  end.

End fields.

(** A generated form for the gist plugin, fields numbered in the order
    the model form factory produced them, and [ContentItemForm] with
    the fields of [BASE_FIELDS]. *)
Definition gist_form_fields : list (string * nat) :=
  [("polymorphic_ctype", 0%nat); ("gist_id", 1%nat); ("placeholder", 2%nat);
   ("filename", 3%nat); ("placeholder_slot", 4%nat); ("parent_item", 5%nat);
   ("parent_item_uid", 6%nat); ("sort_order", 7%nat)].

Definition content_item_form_fields : list (string * nat) :=
  [("polymorphic_ctype", 10%nat); ("placeholder", 11%nat);
   ("placeholder_slot", 12%nat); ("parent_item", 13%nat);
   ("parent_item_uid", 14%nat); ("sort_order", 15%nat)].

End FormClass.

(** ** [get_content_item_inlines]: one parent inline for all plugins *)

Module Inlines.

(** An attribute value whose contents play no part here: whether it is
    truthy, and a name to tell it apart. *)
Record PyObj := mkObj {
  truthy : bool;
  repr : string;
}.

(** A [ContentPlugin] instance, by the attributes that
    [get_content_item_admin_options] reads.  [model] is the model class,
    named by its [__name__]; [copy_field] gives the value of each
    attribute listed in [COPY_FIELDS]. *)
Record ContentPlugin := mkPlugin {
  class_module : string;
  model : string;
  verbose_name : PyObj;
  type_name : string;
  admin_form_template : PyObj;
  admin_init_template : PyObj;
  fieldsets : list PyObj;
  copy_field : string → PyObj;
}.

(** What a caller may hand in as a plugin: a [ContentPlugin] instance,
    or another object.  Of another object its text matters, and whether
    it can be hashed: [Unhashable] is an object of a type without a
    hash, a dict or a list, with the name of that type. *)
Inductive candidate :=
  | Plugin (p : ContentPlugin)
  | NotAPlugin (o : PyObj)
  | Unhashable (ty : string) (o : PyObj).

(** A list of plugins, as a caller hands it in. *)
Definition as_candidates (ps : list ContentPlugin) : list candidate := Plugin <$> ps.

Inductive exn := TypeError (msg : string).

(** The values of the class attributes. *)
Inductive attr :=
  | AStr (s : string)
  | AObj (o : PyObj)
  | AModel (name : string)
  | APlugin (p : ContentPlugin)
  | ATuple (l : list PyObj).

(** A class made by [type(name, (base,), attrs)]; [attrs] in the order
    the dict was filled. *)
Record PyClass := mkClass {
  class_name : string;
  bases : list string;
  attrs : list (string * attr);
}.

Definition COPY_FIELDS : list string :=
  ["form"; "raw_id_fields"; "filter_vertical"; "filter_horizontal";
   "radio_fields"; "prepopulated_fields"; "formfield_overrides"; "readonly_fields"].

(** [for name in COPY_FIELDS: if getattr(plugin, name): attrs[name] = ...]
    (the names are new keys, so each lands at the end). *)
Definition copy_fields (p : ContentPlugin) (attrs0 : list (string * attr))
  : list (string * attr) :=
  foldl (λ attrs name,
           if truthy (copy_field p name)
           then attrs ++ [(name, AObj (copy_field p name))]
           else attrs)
        attrs0 COPY_FIELDS.

Definition get_content_item_admin_options (c : candidate)
  : exn + list (string * attr) :=
  match c with
  | NotAPlugin o | Unhashable _ o =>
      inl (TypeError ("get_content_item_inlines() expects to receive ContentPlugin instances, not "
                      +:+ repr o))
  | Plugin plugin =>
      inr (copy_fields plugin
             [("__module__", AStr (class_module plugin));
              ("model", AModel (model plugin));
              ("name", AObj (verbose_name plugin));
              ("plugin", APlugin plugin);
              ("type_name", AStr (type_name plugin));
              ("cp_admin_form_template", AObj (admin_form_template plugin));
              ("cp_admin_init_template", AObj (admin_init_template plugin));
              ("extra_fieldsets", ATuple (fieldsets plugin))])
  end.

(** [@lru_cache()] around a function of a plugin and a base class.
    Before the body runs, the wrapper makes a key of the arguments and
    hashes it: an argument without a hash ends the call with Python's
    [TypeError].  A base class has a hash, and so has a plugin
    instance, which hashes by identity.  For arguments seen before, the
    wrapper hands back the class the body built for them; classes are
    values here, so that is the class the body builds. *)
Definition lru_cache (body : candidate → string → exn + PyClass)
    (c : candidate) (base : string) : exn + PyClass :=
  match c with
  | Unhashable ty _ => inl (TypeError ("unhashable type: '" +:+ ty +:+ "'"))
  | Plugin _ | NotAPlugin _ => body c base
  end.

(** [create_inline_for_plugin], under [@lru_cache()]. *)
Definition create_inline_for_plugin : candidate → string → exn + PyClass :=
  lru_cache (λ c base,
    match get_content_item_admin_options c with
    | inl e => inl e
    | inr attrs =>
        match c with
        | Plugin plugin => inr (mkClass (model plugin +:+ "_AutoChildInline") [base] attrs)
        | NotAPlugin _ | Unhashable _ _ => (* not reached: refused above *)
            inr (mkClass "_AutoChildInline" [base] attrs)
        end
    end).

(** The parent inline class, by the three attributes its dict sets. *)
Record ParentInline := mkParent {
  parent_class_name : string;
  parent_bases : list string;
  parent_model : string;
  plugins : list candidate;
  child_inlines : list PyClass;
}.

(** The loop that fills [child_inlines]; the first plugin that is
    refused ends it. *)
Fixpoint make_child_inlines (plugins : list candidate) (child_base : string)
  : exn + list PyClass :=
  match plugins with
  | [] => inr []
  | plugin :: rest =>
      match create_inline_for_plugin plugin child_base with
      | inl e => inl e
      | inr c =>
          match make_child_inlines rest child_base with
          | inl e => inl e
          | inr cs => inr (c :: cs)
          end
      end
  end.

Definition BaseContentItemParentInline : string := "BaseContentItemParentInline".
Definition BaseContentItemChildInline : string := "BaseContentItemChildInline".
Definition ContentItem : string := "ContentItem".

(** [get_content_item_inlines(plugins, parent_base, child_base)];
    [pool] is what [extensions.plugin_pool.get_plugins()] returns. *)
Definition get_content_item_inlines (pool : list candidate)
    (plugins : option (list candidate)) (parent_base child_base : string)
  : exn + list ParentInline :=
  let plugins := match plugins with None => pool | Some l => l end in
  match make_child_inlines plugins child_base with
  | inl e => inl e
  | inr child_inlines =>
      inr [mkParent "ContentItemParentInline" [parent_base] ContentItem plugins child_inlines]
  end.

(** The eight entries every plugin gets, and the entry of a copied
    attribute. *)
Definition base_keys : list string :=
  ["__module__"; "model"; "name"; "plugin"; "type_name";
   "cp_admin_form_template"; "cp_admin_init_template"; "extra_fieldsets"].

Definition copied_entry (p : ContentPlugin) (name : string) : string * attr :=
  (name, AObj (copy_field p name)).

(** *** The child admins *)

Definition ContentItemChildAdmin : string := "ContentItemChildAdmin".

(** [create_admin_for_plugin], under [@lru_cache()] as well. *)
Definition create_admin_for_plugin : candidate → string → exn + PyClass :=
  lru_cache (λ c base,
    match get_content_item_admin_options c with
    | inl e => inl e
    | inr attrs =>
        match c with
        | Plugin plugin => inr (mkClass (model plugin +:+ "_ChildAdmin") [base] attrs)
        | NotAPlugin _ | Unhashable _ _ => (* not reached: refused above *)
            inr (mkClass "_ChildAdmin" [base] attrs)
        end
    end).

(** [ContentItemParentAdmin.get_child_models]: a pair of the plugin's
    model and its child admin for every plugin of the pool. *)
Fixpoint get_child_models (pool : list candidate) : exn + list (string * PyClass) :=
  match pool with
  | [] => inr []
  | c :: rest =>
      match create_admin_for_plugin c ContentItemChildAdmin with
      | inl e => inl e
      | inr child_admin =>
          match get_child_models rest with
          | inl e => inl e
          | inr results =>
              inr ((match c with
                    | Plugin plugin => model plugin
                    | NotAPlugin _ | Unhashable _ _ => ""
                    end,
                    child_admin) :: results)
          end
      end
  end.

(** *** [PolymorphicParentInlineModelAdmin]: the lookup table *)

(** The [model] attribute of a class made by [type]: the entry of its
    dict, if there is one. *)
Definition class_model (c : PyClass) : option string :=
  match list_find (λ kv, kv.1 = "model") (attrs c) with
  | Some (_, (_, AModel name)) => Some name
  | _ => None
  end.

(** [__init__]: [_child_inlines_lookup[child_inline.model] = child_inline]
    for every child inline, in order.  An instance is named by its
    class. *)
Definition _child_inlines_lookup (child_inlines : list PyClass)
  : gmap (option string) PyClass :=
  foldl (λ lookup child_inline, <[class_model child_inline := child_inline]> lookup)
        ∅ child_inlines.

Inductive lookup_exn := ValueError (msg : string).

(** [get_child_inline_instance(model)] *)
Definition get_child_inline_instance (child_inlines : list PyClass) (model : string)
  : lookup_exn + PyClass :=
  match _child_inlines_lookup child_inlines !! Some model with
  | Some child_inline => inr child_inline
  | None => inl (ValueError ("Model '" +:+ model +:+ "' not found in child_inlines"))
  end.

(** Two plugins; the second brings a [form] and [raw_id_fields]. *)
Definition unset : PyObj := mkObj false "None".

Definition gist_plugin : ContentPlugin :=
  mkPlugin "fluent_contents.plugins.gist.content_plugins" "GistItem"
    (mkObj true "GitHub Gist snippet") "GistItem" unset unset [] (λ _, unset).

Definition text_plugin : ContentPlugin :=
  mkPlugin "fluent_contents.plugins.text.content_plugins" "TextItem"
    (mkObj true "Text") "TextItem" unset unset []
    (λ name, if decide (name = "form") then mkObj true "TextItemForm"
             else if decide (name = "raw_id_fields") then mkObj true "('author',)"
             else unset).

End Inlines.

(** ** [PlaceholderData] *)

Module PlaceholderData.

Section roles.
(** [Placeholder.MAIN], [Placeholder.SIDEBAR], [Placeholder.RELATED] and
    [Placeholder.ROLES] belong to the model class in
    [fluent_contents/models/db.py], which is not part of the sources
    read here: they are parameters. *)
Context (MAIN SIDEBAR RELATED : string) (ROLES : list (string * string)).

(** [list(dict(Placeholder.ROLES).keys())]: each key once, in the order
    of its first pair. *)
Fixpoint dict_keys (pairs : list (string * string)) (seen : list string) : list string :=
  match pairs with
  | [] => seen
  | (k, _) :: rest =>
      dict_keys rest (if decide (k ∈ seen) then seen else seen ++ [k])
  end.

Definition _ALLOWED_ROLES : list string := dict_keys ROLES [].

Definition ROLE_ALIASES : list (string * string) :=
  [("main", MAIN); ("sidebar", SIDEBAR); ("related", RELATED)].

(** An argument is a string or [None]; both [None] and the empty string
    are falsy. *)
Definition truthy (v : option string) : Prop :=
  match v with Some s => s ≠ "" | None => False end.

Global Instance truthy_dec v : Decision (truthy v).
Proof. destruct v; apply _. Defined.

(** [a or b] *)
Definition py_or (a b : option string) : option string :=
  if decide (truthy a) then a else b.

(** [a or b] where [b] is a string: the result is one. *)
Definition str_or (a : option string) (b : string) : string :=
  match a with
  | Some s => if decide (s = "") then b else s
  | None => b
  end.

(** [ROLE_ALIASES.get(role, default)] *)
Definition aliases_get (role : option string) (default : string) : string :=
  match role with
  | Some r =>
      match list_find (λ kv, kv.1 = r) ROLE_ALIASES with
      | Some (_, kv) => kv.2
      | None => default
      end
  | None => default
  end.

Record PlaceholderData := mkData {
  slot : option string;
  title : option string;
  role : string;
  fallback_language : option string;
}.

Inductive exn := ValueError (msg : string).

Definition show (v : option string) : string :=
  match v with Some s => s | None => "None" end.

Fixpoint join (sep : string) (l : list string) : string :=
  match l with
  | [] => ""
  | [x] => x
  | x :: rest => x +:+ sep +:+ join sep rest
  end.

(** [PlaceholderData.__init__] *)
Definition __init__ (slot title role fallback_language : option string)
  : exn + PlaceholderData :=
  if decide (truthy slot) then
    let self_title := py_or title slot in
    let self_role := aliases_get role (str_or role MAIN) in
    let self_fallback_language := py_or fallback_language None in
    if decide (self_role ∈ _ALLOWED_ROLES) then
      inr (mkData slot self_title self_role self_fallback_language)
    else
      inl (ValueError ("Invalid role '" +:+ self_role
                       +:+ "' for placeholder '" +:+ show (py_or self_title slot)
                       +:+ "': allowed are: " +:+ join ", " ROLE_ALIASES.*1 +:+ "."))
  else inl (ValueError "Slot not defined for placeholder!").

(** [as_dict]: the fields, and the names of the plugins that the pool
    allows for the slot.  The plugin pool belongs to
    [fluent_contents/extensions], which is not part of the sources read
    here: [pool_get_allowed_plugins] is a parameter. *)
Record exported := mkExported {
  exported_slot : option string;
  exported_title : option string;
  exported_role : string;
  exported_fallback_language : option string;
  exported_allowed_plugins : list string;
}.

Section as_dict.
Context {Plugin : Type} (plugin_name : Plugin → string)
        (pool_get_allowed_plugins : option string → list Plugin).

Definition get_allowed_plugins (self : PlaceholderData) : list Plugin :=
  pool_get_allowed_plugins (slot self).

Definition as_dict (self : PlaceholderData) : exported :=
  let plugins := get_allowed_plugins self in
  mkExported (slot self) (title self) (role self) (fallback_language self)
             (plugin_name <$> plugins).

End as_dict.

(** *** What the claim speaks about *)

(** The role after the aliases are resolved and a missing role (none
    given, or an empty one) has become [Placeholder.MAIN]. *)
Definition resolved_role (role : option string) : string :=
  match role with
  | None => MAIN
  | Some r =>
      if decide (r = "main") then MAIN
      else if decide (r = "sidebar") then SIDEBAR
      else if decide (r = "related") then RELATED
      else if decide (r = "") then MAIN
      else r
  end.

End roles.

(** Role codes and labels for the examples. *)
Definition sample_roles : list (string * string) :=
  [("m", "Main content"); ("s", "Sidebar content"); ("r", "Related content")].

End PlaceholderData.

(** * Properties *)

(** ** The sort *)

Section list_sort_facts.
Context {A : Type} (key : A → Z).

Lemma sort_insert_perm x l : sort_insert key x l ≡ₚ x :: l.
Proof.
  induction l as [|y l IH]; simpl; [done|].
  case_bool_decide; [done|].
  rewrite IH. apply Permutation_swap.
Qed.

Lemma list_sort_perm l : list_sort key l ≡ₚ l.
Proof.
  induction l as [|x l IH]; simpl; [done|].
  by rewrite sort_insert_perm, IH.
Qed.

Lemma sort_insert_sorted x l :
  StronglySorted (key_le key) l → StronglySorted (key_le key) (sort_insert key x l).
Proof.
  induction 1 as [|y l Hl IH Hy]; simpl.
  - repeat constructor.
  - case_bool_decide as Hxy.
    + constructor; [by constructor|].
      constructor; [done|].
      eapply Forall_impl; [exact Hy|]. unfold key_le. intros; lia.
    + constructor; [done|].
      rewrite sort_insert_perm. constructor; [unfold key_le; lia|done].
Qed.

Lemma list_sort_sorted l : StronglySorted (key_le key) (list_sort key l).
Proof.
  induction l as [|x l IH]; simpl; [constructor|].
  by apply sort_insert_sorted.
Qed.

(** Stability: the elements of one key keep their relative order. *)
Lemma sort_insert_stable k x l :
  filter (λ y, key y = k) (sort_insert key x l) = filter (λ y, key y = k) (x :: l).
Proof.
  induction l as [|y l IH]; simpl; [done|].
  case_bool_decide as Hxy; [done|].
  rewrite !filter_cons in *.
  repeat case_decide; simplify_eq; try lia; by rewrite ?IH.
Qed.

Lemma list_sort_stable k l :
  filter (λ y, key y = k) (list_sort key l) = filter (λ y, key y = k) l.
Proof.
  induction l as [|x l IH]; simpl; [done|].
  rewrite sort_insert_stable, !filter_cons. by rewrite IH.
Qed.

Lemma list_sort_elem_of x l : x ∈ list_sort key l ↔ x ∈ l.
Proof. by rewrite list_sort_perm. Qed.

End list_sort_facts.

Lemma list_sort_ext {A : Type} (key key' : A → Z) (l : list A) :
  (∀ x, key x = key' x) → list_sort key l = list_sort key' l.
Proof.
  intros Hk. induction l as [|x l IH]; simpl; [done|].
  rewrite IH. generalize (list_sort key' l). intros s.
  induction s as [|y s IHs]; simpl; [done|].
  by rewrite !Hk, IHs.
Qed.

(** ** [ContentItemTree.from_list] *)

Section tree_facts.
Import Tree.

Example from_list_family :
  let '(h', res) := from_list [0; 1; 2]%nat None None None h_family in
  res = inr (mkTree [0%nat] (Some [0; 1; 2]%nat) None None) ∧
  _children (h' 0%nat) = Some (mkTree [2; 1]%nat None None (Some 0%nat)) ∧
  _children (h' 1%nat) = None.
Proof. vm_compute. done. Qed.


(** *** The first loop *)

Lemma od_get_setdefault_append k k' x d :
  od_get k (setdefault_append k' x d) =
    if decide (k' = k) then Some (default [] (od_get k d) ++ [x]) else od_get k d.
Proof.
  induction d as [|[k0 v] d IH]; simpl.
  - by repeat case_decide.
  - destruct (decide (k0 = k')) as [->|Hne]; simpl.
    + by repeat case_decide.
    + rewrite IH. repeat case_decide; simplify_eq; done.
Qed.

Lemma setdefault_append_keys k x d :
  (setdefault_append k x d).*1 = if decide (k ∈ d.*1) then d.*1 else d.*1 ++ [k].
Proof.
  induction d as [|[k0 v] d IH].
  - rewrite decide_False by apply not_elem_of_nil. done.
  - cbn [setdefault_append]. destruct (decide (k0 = k)) as [->|Hne].
    + rewrite decide_True by (rewrite fmap_cons; left). done.
    + rewrite !fmap_cons, IH. cbn [fst].
      destruct (decide (k ∈ d.*1)) as [Hin|Hin].
      * rewrite decide_True by (by right). done.
      * rewrite decide_False; [done|].
        rewrite not_elem_of_cons. split; [congruence|done].
Qed.

Lemma od_get_Some_elem_of k v d : od_get k d = Some v → (k, v) ∈ d.
Proof.
  induction d as [|[k0 v0] d IH]; simpl; [done|].
  case_decide; intros; simplify_eq; [left|right; auto].
Qed.

Lemma od_get_elem_of k v d : NoDup d.*1 → (k, v) ∈ d → od_get k d = Some v.
Proof.
  induction d as [|[k0 v0] d IH]; simpl; intros Hnd Hin.
  - by apply elem_of_nil in Hin.
  - apply NoDup_cons in Hnd as [Hk0 Hnd].
    apply elem_of_cons in Hin as [Heq|Hin]; simplify_eq.
    + by rewrite decide_True.
    + rewrite decide_False; [auto|].
      intros ->. apply Hk0. apply list_elem_of_fmap. by exists (k, v).
Qed.

Lemma od_get_None k d : od_get k d = None ↔ k ∉ d.*1.
Proof.
  induction d as [|[k0 v0] d IH]; simpl.
  - split; [intros _; apply not_elem_of_nil|done].
  - case_decide; simplify_eq.
    + split; [done|]. intros H. exfalso. apply H. left.
    + rewrite IH, not_elem_of_cons. split; [by split|by intros [_ ?]].
Qed.

Lemma index_items_snoc h items x :
  index_items h (items ++ [x]) = index_step h (index_items h items) x.
Proof. unfold index_items. by rewrite foldl_snoc. Qed.

(** The groups of [parents] are the classes of [parent_item_id], each in
    list order. *)
Lemma index_items_parents h items k :
  od_get k (index_items h items).1 =
    if decide (group h items k = []) then None else Some (group h items k).
Proof.
  induction items as [|x items IH] using rev_ind; [done|].
  rewrite index_items_snoc. cbn [index_step fst].
  rewrite od_get_setdefault_append, IH.
  unfold group. rewrite filter_app, filter_cons, filter_nil.
  fold (group h items k).
  destruct (decide (parent_item_id (h x) = k)) as [Hx|Hx].
  - destruct (decide (group h items k = [])) as [Hg|Hg]; simpl.
    + rewrite Hg. done.
    + rewrite decide_False; [done|]. by intros [_ ?]%app_eq_nil.
  - rewrite app_nil_r. done.
Qed.

Lemma index_items_keys_NoDup h items : NoDup (index_items h items).1.*1.
Proof.
  induction items as [|x items IH] using rev_ind.
  { constructor. }
  rewrite index_items_snoc. simpl. rewrite setdefault_append_keys.
  case_decide as Hin; [done|].
  apply NoDup_app. split_and!; [done| |apply NoDup_singleton].
  intros k Hk ->%list_elem_of_singleton. done.
Qed.

Lemma index_items_entry h items k g :
  (k, g) ∈ (index_items h items).1 ↔ g = group h items k ∧ g ≠ [].
Proof.
  split.
  - intros Hin. apply od_get_elem_of in Hin; [|apply index_items_keys_NoDup].
    rewrite index_items_parents in Hin. case_decide; naive_solver.
  - intros [-> Hne]. apply od_get_Some_elem_of.
    rewrite index_items_parents. by rewrite decide_False.
Qed.

(** [lookup] resolves an id to the last item of the list that has it. *)
Lemma index_items_lookup h items k :
  (index_items h items).2 !! k = item_with_id h items k.
Proof.
  unfold item_with_id.
  induction items as [|x items IH] using rev_ind; [done|].
  rewrite index_items_snoc. simpl.
  rewrite filter_app, filter_cons, filter_nil.
  destruct (decide (id (h x) = k)) as [<-|Hne].
  - by rewrite lookup_insert_eq, last_snoc.
  - by rewrite lookup_insert_ne, app_nil_r.
Qed.

Lemma item_with_id_Some h items k r :
  item_with_id h items k = Some r → r ∈ items ∧ id (h r) = k.
Proof.
  unfold item_with_id. intros Hl%last_Some_elem_of.
  apply list_elem_of_filter in Hl as [? ?]. done.
Qed.

Lemma item_with_id_is_Some h items k :
  is_Some (item_with_id h items k) ↔ Exists (λ j, id (h j) = k) items.
Proof.
  unfold item_with_id. rewrite last_is_Some, Exists_exists. split.
  - intros Hne. destruct (filter _ items) as [|r l] eqn:Hf; [done|].
    assert (r ∈ filter (λ r, id (h r) = k) items) as Hr by (rewrite Hf; left).
    apply list_elem_of_filter in Hr as [? ?]. eauto.
  - intros (r & Hr & Hid) Hnil.
    by pose proof (filter_nil_not_elem_of (λ r, id (h r) = k) items r Hnil Hid).
Qed.


(** *** The second loop *)

Lemma same_columns_refl h : same_columns h h.
Proof. by intros r. Qed.

Lemma same_columns_trans h1 h2 h3 :
  same_columns h1 h2 → same_columns h2 h3 → same_columns h1 h3.
Proof.
  intros H12 H23 r. destruct (H12 r) as (?&?&?), (H23 r) as (?&?&?).
  split_and!; congruence.
Qed.

Lemma heap_insert_eq (h : heap) r v : (<[r := v]> h) r = v.
Proof. unfold insert, fn_insert. by rewrite decide_True. Qed.

Lemma heap_insert_ne (h : heap) r r' v : r ≠ r' → (<[r := v]> h) r' = h r'.
Proof. intros. unfold insert, fn_insert. by rewrite decide_False. Qed.

Lemma _set_children_columns p t h : same_columns h (_set_children p t h).
Proof.
  intros r. unfold _set_children. destruct (decide (p = r)) as [->|Hne].
  - by rewrite heap_insert_eq.
  - by rewrite heap_insert_ne.
Qed.

Lemma sorted_group_list_sort h items k :
  sorted_group h items k (list_sort (λ r, sort_order (h r)) (group h items k)).
Proof.
  split_and!.
  - apply list_sort_perm.
  - apply list_sort_sorted.
  - intros o. apply list_sort_stable.
Qed.

(** When every group that needs a parent finds one, the loop ends
    without an exception; each such parent then holds its sorted group,
    and no other item is touched. *)
Lemma set_all_children_ok ph lookup top d h :
  NoDup d.*1 →
  (∀ kz r, lookup !! kz = Some r → id (h r) = kz) →
  (∀ kz g, (Some kz, g) ∈ d → Some kz ≠ top → is_Some (lookup !! kz)) →
  ∃ h', set_all_children ph lookup top d h = (h', None) ∧
        same_columns h h' ∧
        (∀ kz g r, (Some kz, g) ∈ d → Some kz ≠ top → lookup !! kz = Some r →
           _children (h' r)
           = Some (mkTree (list_sort (λ x, sort_order (h x)) g) None ph (Some r))) ∧
        (∀ r, (∀ kz g, (Some kz, g) ∈ d → Some kz ≠ top → lookup !! kz ≠ Some r) →
           h' r = h r).
Proof.
  revert h. induction d as [|[k g] d IH]; intros h Hnd Hid Hres.
  { exists h. split_and!; [done|apply same_columns_refl| |done].
    intros ??? Hin. by apply elem_of_nil in Hin. }
  rewrite fmap_cons in Hnd. apply NoDup_cons in Hnd as [Hk Hnd]. cbn [fst] in Hk.
  assert (∀ kz g', (Some kz, g') ∈ d → Some kz ≠ top → is_Some (lookup !! kz)) as Hres'.
  { intros kz g' Hin. apply (Hres kz g'). by right. }
  destruct k as [pid|]; cbn [set_all_children].
  - destruct (decide (Some pid ≠ top)) as [Hne|Heq].
    + destruct (Hres pid g) as [p Hp]; [left|done|]. rewrite Hp.
      set (t := mkTree (list_sort (λ r, sort_order (h r)) g) None ph (Some p)).
      pose proof (_set_children_columns p t h) as Hcol1.
      destruct (IH (_set_children p t h)) as (h' & Heq' & Hcol & Hch & Hfr); [done| |done|].
      { intros kz r Hlk. destruct (Hcol1 r) as (-> & _). by apply Hid. }
      assert (∀ kz g', (Some kz, g') ∈ d → Some kz ≠ top → lookup !! kz ≠ Some p) as Hfresh.
      { intros kz g' Hin _ Hlk. apply Hid in Hlk. apply Hid in Hp.
        apply Hk. apply list_elem_of_fmap. exists (Some kz, g').
        split; [|done]. simpl. congruence. }
      exists h'. split_and!; [done|by eapply same_columns_trans| |].
      * intros kz g' r [[= -> ->]|Hin]%elem_of_cons Hkz Hlk.
        -- assert (r = p) as -> by congruence.
           rewrite Hfr by done. unfold _set_children. by rewrite heap_insert_eq.
        -- rewrite (Hch kz g' r Hin Hkz Hlk). do 2 f_equal.
           apply list_sort_ext. intros x. by destruct (Hcol1 x) as (_ & _ & ->).
      * intros r Hr. rewrite Hfr.
        -- unfold _set_children. rewrite heap_insert_ne; [done|].
           intros ->. by eapply (Hr pid g); [left|..].
        -- intros kz g' Hin. apply (Hr kz g'). by right.
    + destruct (IH h) as (h' & Heq' & Hcol & Hch & Hfr); [done..|].
      exists h'. split_and!; [done..| |].
      * intros kz g' r [[= -> ->]|Hin]%elem_of_cons Hkz Hlk; [done|].
        by apply (Hch kz g' r).
      * intros r Hr. apply Hfr. intros kz g' Hin. apply (Hr kz g'). by right.
  - destruct (IH h) as (h' & Heq' & Hcol & Hch & Hfr); [done..|].
    exists h'. split_and!; [done..| |].
    + intros kz g' r [[=]|Hin]%elem_of_cons Hkz Hlk. by apply (Hch kz g' r).
    + intros r Hr. apply Hfr. intros kz g' Hin. apply (Hr kz g'). by right.
Qed.

(** Conversely, a loop that ended without an exception resolved every
    parent id it met. *)
Lemma set_all_children_None ph lookup top d h h' :
  set_all_children ph lookup top d h = (h', None) →
  ∀ kz g, (Some kz, g) ∈ d → Some kz ≠ top → is_Some (lookup !! kz).
Proof.
  revert h. induction d as [|[k g] d IH]; intros h Hrun kz g' Hin Hne.
  { by apply elem_of_nil in Hin. }
  cbn [set_all_children] in Hrun.
  apply elem_of_cons in Hin as [[= <- <-]|Hin].
  - rewrite decide_True in Hrun by done.
    destruct (lookup !! kz); [eauto|done].
  - destruct k as [pid|]; [|by eapply IH].
    destruct (decide (Some pid ≠ top)); [|by eapply IH].
    destruct (lookup !! pid); [by eapply IH|done].
Qed.


(** *** [from_list] as a whole *)

Lemma from_list_nonempty items top ph parent h :
  items ≠ [] →
  from_list items top ph parent h =
    match set_all_children ph (index_items h items).2 top (index_items h items).1 h with
    | (h', Some e) => (h', inl e)
    | (h', None) =>
        match od_get top (index_items h items).1 with
        | None => (h', inl (KeyError top))
        | Some root_items =>
            (h', inr (mkTree (list_sort (λ r, sort_order (h' r)) root_items)
                        (Some items) ph parent))
        end
    end.
Proof.
  intros Hne. destruct items as [|x items]; [done|].
  unfold from_list. by destruct (index_items h (x :: items)).
Qed.

Lemma group_nonempty h items k :
  group h items k ≠ [] ↔ Exists (λ r, parent_item_id (h r) = k) items.
Proof.
  rewrite Exists_exists. unfold group. split.
  - destruct (filter _ items) as [|r l] eqn:Hf; [done|]. intros _.
    assert (r ∈ filter (λ r, parent_item_id (h r) = k) items) as Hr
      by (rewrite Hf; left).
    apply list_elem_of_filter in Hr as [? ?]. eauto.
  - intros (r & Hr & Hk) Hnil.
    by pose proof (filter_nil_not_elem_of (λ r, parent_item_id (h r) = k) items r Hnil Hk).
Qed.

(** Under the precondition every parent id the second loop meets is in
    [lookup]. *)
Lemma from_list_pre_resolves h items top :
  from_list_pre h items top →
  ∀ kz g, (Some kz, g) ∈ (index_items h items).1 → Some kz ≠ top →
          is_Some ((index_items h items).2 !! kz).
Proof.
  intros [->|[_ Hall]] kz g Hin Hne.
  { by apply elem_of_nil in Hin. }
  apply index_items_entry in Hin as [-> Hg].
  apply group_nonempty, Exists_exists in Hg as (r & Hr & Hk).
  rewrite Forall_forall in Hall.
  rewrite index_items_lookup. apply item_with_id_is_Some. by eapply Hall.
Qed.

Lemma index_items_lookup_id h items kz r :
  (index_items h items).2 !! kz = Some r → id (h r) = kz.
Proof. rewrite index_items_lookup. by intros [_ ?]%item_with_id_Some. Qed.


(** C1, as amended.  When the list is empty, or has an item directly
    under [top_parent_id] and no parent id without an item,
    [from_list] returns a tree.  For the empty list the tree is empty
    and nothing is touched.  Otherwise [flat_items] is the full list, the
    roots are the group of [top_parent_id] sorted ascending by
    [sort_order], and every group whose key is neither [None] nor
    [top_parent_id] is attached, sorted ascending by [sort_order], as the
    children of the item of the list with that id (the last one, should
    several share it); every other item is left as it was. *)
Theorem from_list_builds_tree h items top ph parent :
  from_list_pre h items top →
  ∃ h' t,
    from_list items top ph parent h = (h', inr t) ∧
    placeholder t = ph ∧ parent_item t = parent ∧
    same_columns h h' ∧
    match items with
    | [] => tree_items t = [] ∧ flat_items t = None ∧ ∀ r, h' r = h r
    | _ :: _ =>
        flat_items t = Some items ∧
        sorted_group h items top (tree_items t) ∧
        (∀ kz, Some kz ≠ top → group h items (Some kz) ≠ [] →
           ∃ p g, item_with_id h items kz = Some p ∧
                  p ∈ items ∧ id (h p) = kz ∧
                  sorted_group h items (Some kz) g ∧
                  _children (h' p) = Some (mkTree g None ph (Some p))) ∧
        (∀ r, (∀ kz, Some kz ≠ top → group h items (Some kz) ≠ [] →
                     item_with_id h items kz ≠ Some r) →
              h' r = h r)
    end.
Proof.
  intros Hpre.
  destruct (decide (items = [])) as [->|Hne].
  { exists h, (mkTree [] None ph parent). by split_and!. }
  pose proof (from_list_pre_resolves _ _ _ Hpre) as Hres.
  destruct Hpre as [?|[Hroot _]]; [done|].
  destruct (set_all_children_ok ph (index_items h items).2 top
              (index_items h items).1 h)
    as (h' & Hrun & Hcol & Hch & Hfr);
    [apply index_items_keys_NoDup|apply index_items_lookup_id|exact Hres|].
  rewrite from_list_nonempty, Hrun, index_items_parents by done.
  apply group_nonempty in Hroot. rewrite decide_False by done.
  eexists h', _. split; [done|]. cbn [placeholder parent_item flat_items tree_items].
  split_and!; [done..|].
  destruct items as [|x items]; [done|]. split_and!; [done| | |].
  - rewrite (list_sort_ext _ (λ r, sort_order (h r)))
      by (intros r; by destruct (Hcol r) as (_ & _ & ->)).
    apply sorted_group_list_sort.
  - intros kz Hkz Hg.
    assert ((Some kz, group h (x :: items) (Some kz)) ∈ (index_items h (x :: items)).1)
      as Hin by (by apply index_items_entry).
    destruct (Hres _ _ Hin Hkz) as [p Hp].
    exists p, (list_sort (λ r, sort_order (h r)) (group h (x :: items) (Some kz))).
    rewrite (Hch _ _ _ Hin Hkz Hp). rewrite index_items_lookup in Hp.
    destruct (item_with_id_Some _ _ _ _ Hp) as [? ?].
    split_and!; [done..|apply sorted_group_list_sort|done].
  - intros r Hr. apply Hfr. intros kz g Hin Hkz.
    apply index_items_entry in Hin as [-> Hg].
    rewrite index_items_lookup. by apply Hr.
Qed.

Lemma h_family_pre : from_list_pre h_family [0; 1; 2]%nat None.
Proof.
  right. split; [by left|].
  apply Forall_cons_2; [by intros k [=]|].
  apply Forall_cons_2; [intros k [= <-] _; by left|].
  apply Forall_cons_2; [intros k [= <-] _; by left|].
  apply Forall_nil_2.
Qed.

Lemma from_list_builds_tree_witness :
  ∃ h' t,
    from_list [0; 1; 2]%nat None None None h_family = (h', inr t) ∧
    placeholder t = None ∧ parent_item t = None ∧
    same_columns h_family h' ∧
    flat_items t = Some [0; 1; 2]%nat ∧
    sorted_group h_family [0; 1; 2]%nat None (tree_items t) ∧
    (∀ kz, Some kz ≠ None → group h_family [0; 1; 2]%nat (Some kz) ≠ [] →
       ∃ p g, item_with_id h_family [0; 1; 2]%nat kz = Some p ∧
              p ∈ [0; 1; 2]%nat ∧ id (h_family p) = kz ∧
              sorted_group h_family [0; 1; 2]%nat (Some kz) g ∧
              _children (h' p) = Some (mkTree g None None (Some p))) ∧
    (∀ r, (∀ kz, Some kz ≠ None → group h_family [0; 1; 2]%nat (Some kz) ≠ [] →
                 item_with_id h_family [0; 1; 2]%nat kz ≠ Some r) →
          h' r = h_family r).
Proof.
  exact (from_list_builds_tree h_family [0; 1; 2]%nat None None None h_family_pre).
Defined.

(** C1, as first stated, fails: a list whose only item names a parent
    that is not in the list is not turned into a tree; [lookup[10]]
    raises [KeyError]. *)
Lemma from_list_orphan_raises :
  from_list [1%nat] None None None h_family
  = (h_family, inl (KeyError (Some 10))).
Proof. reflexivity. Qed.

(** C8.  [from_list] returns a tree exactly under its precondition:
    with it neither [lookup[parent_id]] nor [parents[top_parent_id]]
    raises, and without it the call ends in a [KeyError]. *)
Theorem from_list_total h items top ph parent :
  (from_list_pre h items top →
     ∃ h' t, from_list items top ph parent h = (h', inr t)) ∧
  (¬ from_list_pre h items top →
     ∃ h' k, from_list items top ph parent h = (h', inl (KeyError k))).
Proof.
  split.
  - intros Hpre.
    destruct (decide (items = [])) as [->|Hne]; [by eexists _, _|].
    pose proof (from_list_pre_resolves _ _ _ Hpre) as Hres.
    destruct Hpre as [?|[Hroot _]]; [done|].
    destruct (set_all_children_ok ph (index_items h items).2 top
                (index_items h items).1 h) as (h' & Hrun & _);
      [apply index_items_keys_NoDup|apply index_items_lookup_id|exact Hres|].
    rewrite from_list_nonempty, Hrun, index_items_parents by done.
    apply group_nonempty in Hroot. rewrite decide_False by done. eauto.
  - intros Hnpre.
    assert (items ≠ []) as Hne by (intros ->; apply Hnpre; by left).
    rewrite from_list_nonempty by done.
    destruct (set_all_children _ _ _ _ _) as [h' [[k]|]] eqn:Hrun; [eauto|].
    rewrite index_items_parents.
    destruct (decide (group h items top = [])) as [Hg|Hg]; [eauto|].
    exfalso. apply Hnpre. right. split; [by apply group_nonempty|].
    apply Forall_forall. intros r Hr k Hk Hkz.
    apply item_with_id_is_Some. rewrite <- index_items_lookup.
    eapply set_all_children_None; [exact Hrun| |done].
    apply index_items_entry. split; [done|].
    apply group_nonempty, Exists_exists. eauto.
Qed.

Lemma from_list_total_witness :
  (∃ h' t, from_list [0; 1; 2]%nat None None None h_family = (h', inr t)) ∧
  (∃ h' k, from_list [0%nat] (Some 7) None None h_family = (h', inl (KeyError k))).
Proof.
  split.
  - exact (proj1 (from_list_total h_family [0; 1; 2]%nat None None None) h_family_pre).
  - apply (proj2 (from_list_total h_family [0%nat] (Some 7) None None)).
    intros [[=]|[Hroot _]]. apply Exists_cons in Hroot as [[=]|Hnil].
    by apply Exists_nil in Hnil.
Defined.

End tree_facts.

(** ** Media objects *)

Section media_facts.
Import Media.

Lemma paths_add_elem_of x l paths :
  x ∈ paths_add l paths ↔ x ∈ l ∨ x ∈ paths.
Proof.
  unfold paths_add. revert l.
  induction paths as [|p paths IH]; intros l; simpl.
  - rewrite elem_of_nil. tauto.
  - rewrite IH, elem_of_cons. case_decide as Hp.
    + split; [tauto|]. intros [?|[->|?]]; auto.
    + rewrite elem_of_app, list_elem_of_singleton. tauto.
Qed.

Lemma paths_add_nil_l paths : paths ≠ [] → paths_add [] paths ≠ [].
Proof.
  destruct paths as [|p paths]; [done|]. intros _ Hnil.
  assert (p ∈ paths_add [] (p :: paths)) as Hin
    by (apply paths_add_elem_of; right; left).
  rewrite Hnil in Hin. by apply elem_of_nil in Hin.
Qed.

Lemma css_add_lookup css data medium :
  css_add css data !! medium = css_add_medium (css !! medium) (data !! medium).
Proof.
  unfold css_add. rewrite lookup_merge.
  by destruct (css !! medium), (data !! medium).
Qed.

Lemma css_add_file css data medium path :
  (∃ l, css_add css data !! medium = Some l ∧ path ∈ l) ↔
  (∃ l, css !! medium = Some l ∧ path ∈ l) ∨
  (∃ l, data !! medium = Some l ∧ path ∈ l).
Proof.
  rewrite css_add_lookup. unfold css_add_medium.
  destruct (data !! medium) as [paths|] eqn:Hd.
  - case_decide as Hp.
    + subst paths. split; [auto|]. intros [?|(l & [= <-] & Hin)]; [done|].
      by apply elem_of_nil in Hin.
    + split.
      * intros (l & [= <-] & Hin). apply paths_add_elem_of in Hin as [Hin|Hin].
        -- left. destruct (css !! medium) as [l0|]; [eauto|].
           by apply elem_of_nil in Hin.
        -- right. eauto.
      * intros H. eexists. split; [done|]. apply paths_add_elem_of.
        destruct H as [(l & -> & Hin)|(l & [= <-] & Hin)]; auto.
  - split; [auto|]. by intros [?|(l & [=] & _)].
Qed.

Lemma css_add_empty_l data medium path :
  (∃ l, css_add ∅ data !! medium = Some l ∧ path ∈ l) ↔
  (∃ l, data !! medium = Some l ∧ path ∈ l).
Proof.
  rewrite css_add_file, lookup_empty. split; [|auto].
  by intros [(l & [=] & _)|?].
Qed.

(** [Media.__add__] keeps the files of both operands, allocates the
    result and leaves every existing object alone. *)
Lemma Media_add_files self other h :
  let '(h', r) := Media_add self other h in
  r = next h ∧ next h' = S (next h) ∧
  cls (cell h' r) = PlainMedia ∧
  files_within (cell h self) (cell h' r) ∧
  files_within (cell h other) (cell h' r) ∧
  ∀ a, a ≠ next h → cell h' a = cell h a.
Proof.
  unfold Media_add, alloc. cbn [cell next].
  unfold insert at 1 2 3, fn_insert. rewrite decide_True by done.
  cbn [cls _css _js].
  split_and!; [done..| | |].
  - split.
    + intros medium path Hf. unfold css_file in *. cbn [_css].
      apply css_add_file. left. by apply css_add_empty_l.
    + intros path Hf. unfold js_file, js_add in *. cbn [_js].
      apply paths_add_elem_of. left. apply paths_add_elem_of. by right.
  - split.
    + intros medium path Hf. unfold css_file in *. cbn [_css].
      apply css_add_file. by right.
    + intros path Hf. unfold js_file, js_add in *. cbn [_js].
      apply paths_add_elem_of. by right.
  - intros a Ha. unfold insert, fn_insert. by rewrite decide_False.
Qed.


Lemma heap0_ok : heap_ok heap0.
Proof. split; [cbn; lia|done]. Qed.

Lemma alloc_ok o h : heap_ok h → heap_ok (alloc o h).1.
Proof.
  intros [Hn He]. split; cbn [alloc fst next cell]; [lia|].
  unfold insert, fn_insert. rewrite decide_False; [done|].
  unfold empty_instance. lia.
Qed.

(** The copy that [ImmutableMedia.__add__] makes: a new plain [Media]
    with the dict and the list of [other], and nothing of [self]. *)
Lemma ImmutableMedia_add_copy self other h :
  other ≠ empty_instance →
  __add__ self other h
  = alloc (mkMedia PlainMedia (_css (cell h other)) (_js (cell h other))) h.
Proof. intros Hne. unfold __add__. by rewrite decide_False. Qed.

(** C6.  For an [ImmutableMedia] object, [add_css] and [add_js] raise
    [RuntimeError] whatever the argument, and [__add__] returns the
    shared empty instance or a newly constructed plain [Media], leaving
    the [_css] and [_js] of every existing object, the two operands
    among them, as they were. *)
Theorem ImmutableMedia_immutable h self other css_data js_data :
  (self < next h)%nat → (other < next h)%nat →
  cls (cell h self) = ImmutableMediaClass →
  (∃ msg, add_css self css_data h = (h, inl (RuntimeError msg))) ∧
  (∃ msg, add_js self js_data h = (h, inl (RuntimeError msg))) ∧
  py_add self other h = __add__ self other h ∧
  let '(h', r) := __add__ self other h in
  (r = empty_instance ∧ h' = h ∨
   r = next h ∧ next h' = S (next h) ∧ cls (cell h' r) = PlainMedia) ∧
  (∀ a, (a < next h)%nat → cell h' a = cell h a) ∧
  cell h' self = cell h self ∧ cell h' other = cell h other.
Proof.
  intros Hself Hother Hcls. split_and!; [by eexists..| |].
  { unfold py_add. by rewrite Hcls. }
  unfold __add__.
  case_decide as Hemp; [by split_and!; [left|..]|].
  assert (∀ a, (a < next h)%nat →
            (<[next h := mkMedia PlainMedia (_css (cell h other)) (_js (cell h other))]>
               (cell h)) a = cell h a) as Hframe.
  { intros a Ha. unfold insert, fn_insert. rewrite decide_False; [done|lia]. }
  cbn [alloc next cell]. split_and!; [right|auto..].
  split_and!; [done..|].
  unfold insert, fn_insert. by rewrite decide_True.
Qed.

Lemma ImmutableMedia_immutable_witness :
  (∃ msg, add_css 2%nat {[ "all" := ["x.css"] ]} h_sample = (h_sample, inl (RuntimeError msg))) ∧
  (∃ msg, add_js 2%nat ["x.js"] h_sample = (h_sample, inl (RuntimeError msg))) ∧
  py_add 2%nat 1%nat h_sample = __add__ 2%nat 1%nat h_sample ∧
  let '(h', r) := __add__ 2%nat 1%nat h_sample in
  (r = empty_instance ∧ h' = h_sample ∨
   r = next h_sample ∧ next h' = S (next h_sample) ∧ cls (cell h' r) = PlainMedia) ∧
  (∀ a, (a < next h_sample)%nat → cell h' a = cell h_sample a) ∧
  cell h' 2%nat = cell h_sample 2%nat ∧ cell h' 1%nat = cell h_sample 1%nat.
Proof.
  apply (ImmutableMedia_immutable h_sample 2%nat 1%nat);
    [cbn; lia|cbn; lia|reflexivity].
Defined.

(** C2 fails on the code.  An [ImmutableMedia] that was constructed with
    a script of its own, added to a plain [Media], yields a copy of the
    plain one: the left operand's script is not in the result. *)
Lemma ImmutableMedia_add_drops_self :
  let '(h', r) := py_add 2%nat 1%nat h_sample in
  cls (cell h_sample 2%nat) = ImmutableMediaClass ∧
  js_file (cell h_sample 2%nat) "gist.js" ∧
  cell h' r = mkMedia PlainMedia {[ "all" := ["site.css"] ]} ["site.js"] ∧
  ¬ js_file (cell h' r) "gist.js".
Proof.
  split_and!; [done| |done|].
  - unfold js_file. change (_js (cell h_sample 2%nat)) with ["gist.js"]. left.
  - unfold js_file. intros Hin.
    change ("gist.js" ∈ ["site.js"]) in Hin.
    by apply list_elem_of_singleton in Hin.
Qed.


(** C9.  Restoring an output from its pickled state keeps the text of
    [html] and the [_css] and [_js] of its media, uses the shared empty
    instance exactly when both are empty (and a new [ImmutableMedia]
    otherwise), and always sets [cacheable] to [True] and
    [cache_timeout] to [DEFAULT_TIMEOUT]. *)
Theorem getstate_setstate_roundtrip h o :
  heap_ok h →
  let '(h', r) := __setstate__ (__getstate__ o h) h in
  html r = html o ∧
  _css (cell h' (media r)) = _css (cell h (media o)) ∧
  _js (cell h' (media r)) = _js (cell h (media o)) ∧
  (media r = empty_instance ↔
     _css (cell h (media o)) = ∅ ∧ _js (cell h (media o)) = []) ∧
  (media r ≠ empty_instance →
     media r = next h ∧ cls (cell h' (media r)) = ImmutableMediaClass) ∧
  cacheable r = true ∧ cache_timeout r = DEFAULT_TIMEOUT ∧
  heap_ok h' ∧ (∀ a, (a < next h)%nat → cell h' a = cell h a).
Proof.
  intros [Hn He]. unfold __getstate__, __setstate__.
  case_decide as Hempty.
  - destruct Hempty as [Hcss Hjs]. cbn [html media cacheable cache_timeout].
    rewrite He, Hcss, Hjs. cbn [_css _js]. by split_and!.
  - cbn [ImmutableMedia_new alloc write next cell html media cacheable cache_timeout].
    assert (next h ≠ empty_instance) as Hfresh by (unfold empty_instance; lia).
    unfold insert, fn_insert. rewrite !decide_True by done. cbn [cls _css _js].
    split_and!; [done..| | |done|done| |].
    + split; [by intros ?|]. intros [? ?]. by destruct Hempty.
    + done.
    + split; cbn [write next cell]; [lia|].
      unfold insert, fn_insert. rewrite !decide_False by done. exact He.
    + intros a Ha. rewrite !decide_False by lia. done.
Qed.

Lemma getstate_setstate_roundtrip_witness :
  let '(h', r) := __setstate__ (__getstate__ o_page h_sample) h_sample in
  html r = html o_page ∧
  _css (cell h' (media r)) = _css (cell h_sample (media o_page)) ∧
  _js (cell h' (media r)) = _js (cell h_sample (media o_page)) ∧
  (media r = empty_instance ↔
     _css (cell h_sample (media o_page)) = ∅ ∧ _js (cell h_sample (media o_page)) = []) ∧
  (media r ≠ empty_instance →
     media r = next h_sample ∧ cls (cell h' (media r)) = ImmutableMediaClass) ∧
  cacheable r = true ∧ cache_timeout r = DEFAULT_TIMEOUT ∧
  heap_ok h' ∧ (∀ a, (a < next h_sample)%nat → cell h' a = cell h_sample a).
Proof.
  apply (getstate_setstate_roundtrip h_sample o_page).
  split; [cbn; lia|reflexivity].
Defined.

(** The cache flags are indeed lost: [o_page] was not cacheable and had
    a timeout of its own. *)
Example restored_flags :
  let r := (__setstate__ (__getstate__ o_page h_sample) h_sample).2 in
  cacheable o_page = false ∧ cache_timeout o_page = Seconds 60 ∧
  cacheable r = true ∧ cache_timeout r = DEFAULT_TIMEOUT.
Proof. done. Qed.

(** *** [_insert_media] *)

(** Where [_insert_media] does aggregate: when the media handed in is a
    plain [Media], or when the output still holds the shared empty
    instance.  The result then has every file of both, and no existing
    object is changed. *)
Lemma _insert_media_keeps_files h o m :
  heap_ok h → (m < next h)%nat → (media o < next h)%nat →
  cls (cell h m) = PlainMedia ∨ media o = empty_instance →
  let '(h', o') := _insert_media m o h in
  files_within (cell h m) (cell h' (media o')) ∧
  files_within (cell h (media o)) (cell h' (media o')) ∧
  (∀ a, (a < next h)%nat → cell h' a = cell h a).
Proof.
  intros [Hn He] Hm Ho Hcase. unfold _insert_media.
  destruct (decide (media o = empty_instance)) as [Hemp|Hnemp].
  - unfold Media_new. cbn [alloc].
    set (h1 := mkHeap (S (next h)) (<[next h := mkMedia PlainMedia ∅ []]> (cell h))).
    assert (∀ a, (a < next h)%nat → cell h1 a = cell h a) as H1.
    { intros a Ha. cbn [h1 cell]. unfold insert, fn_insert.
      rewrite decide_False; [done|lia]. }
    assert (cell h1 (next h) = mkMedia PlainMedia ∅ []) as H1n.
    { cbn [h1 cell]. unfold insert, fn_insert. by rewrite decide_True. }
    unfold py_add. rewrite H1n. cbn [cls].
    pose proof (Media_add_files (next h) m h1) as Hadd.
    destruct (Media_add (next h) m h1) as [h2 r].
    destruct Hadd as (-> & _ & _ & _ & Hother & Hframe).
    cbn [set_media media]. rewrite (H1 m Hm) in Hother.
    split_and!; [done| |].
    + rewrite Hemp, He. split.
      * intros medium path (l & Hl & _). cbn [_css] in Hl.
        by rewrite lookup_empty in Hl.
      * intros path Hin. unfold js_file in Hin. cbn [_js] in Hin.
        by apply elem_of_nil in Hin.
    + intros a Ha. rewrite Hframe by (cbn [h1 next]; lia). by apply H1.
  - destruct Hcase as [Hplain|?]; [|done].
    unfold py_add. rewrite Hplain.
    pose proof (Media_add_files m (media o) h) as Hadd.
    destruct (Media_add m (media o) h) as [h1 r].
    destruct Hadd as (-> & _ & _ & Hself & Hother & Hframe).
    cbn [set_media media]. split_and!; [done..|].
    intros a Ha. apply Hframe. lia.
Qed.

Lemma insert_media_keeps_files_witness :
  let '(h', o') := _insert_media 1%nat o_page h_sample in
  files_within (cell h_sample 1%nat) (cell h' (media o')) ∧
  files_within (cell h_sample (media o_page)) (cell h' (media o')) ∧
  (∀ a, (a < next h_sample)%nat → cell h' a = cell h_sample a).
Proof.
  apply (_insert_media_keeps_files h_sample o_page 1%nat);
    [split; [cbn; lia|reflexivity]|cbn; lia|cbn; lia|by left].
Defined.

(** C4 fails on the code.  The media of an output restored from the
    cache is an [ImmutableMedia] with the pickled script.  Inserted
    into an output that already has media of its own, it is the left
    operand of [+], and [ImmutableMedia.__add__] copies the right one
    only: the script is not in the output's media afterwards. *)
Lemma insert_media_drops_restored :
  let '(h', o') := _insert_media (media o_restored) o_page h_restored in
  cls (cell h_restored (media o_restored)) = ImmutableMediaClass ∧
  js_file (cell h_restored (media o_restored)) "gist.js" ∧
  media o_page ≠ empty_instance ∧
  cell h' (media o') = mkMedia PlainMedia {[ "all" := ["site.css"] ]} ["site.js"] ∧
  ¬ js_file (cell h' (media o')) "gist.js".
Proof.
  set (res := _insert_media (media o_restored) o_page h_restored).
  assert (cell res.1 (media res.2)
          = mkMedia PlainMedia {[ "all" := ["site.css"] ]} ["site.js"]) as Hres
    by reflexivity.
  destruct res as [h' o']. cbn [fst snd] in Hres. rewrite Hres.
  split_and!; [done| |done|done|].
  - unfold js_file.
    change (_js (cell h_restored (media o_restored))) with ["gist.js"]. left.
  - unfold js_file. intros Hin.
    change ("gist.js" ∈ ["site.js"]) in Hin.
    by apply list_elem_of_singleton in Hin.
Qed.

End media_facts.

(** ** The formset *)

Section formset_facts.
Import Formset.

Lemma get_by_slot_inr rows s p :
  get_by_slot rows s = inr p → p ∈ rows ∧ slot p = s.
Proof.
  unfold get_by_slot.
  destruct (filter _ rows) as [|q [|]] eqn:Hf; intros [= <-].
  assert (q ∈ filter (λ p, slot p = s) rows) as Hq by (rewrite Hf; left).
  apply list_elem_of_filter in Hq as [? ?]. done.
Qed.

Lemma init_cache_ok rows lang : cache_ok (init rows lang).
Proof. intros s p Hl. cbn in Hl. by rewrite lookup_empty in Hl. Qed.

(** A placeholder that [desired_placeholder] returns belongs to the
    parent and has the slot asked for; the cache stays sound. *)
Lemma desired_placeholder_inr s fs fs' p :
  cache_ok fs →
  desired_placeholder s fs = inr (fs', p) →
  p ∈ parent_placeholders fs ∧ slot p = s ∧
  parent_placeholders fs' = parent_placeholders fs ∧
  _deleted_placeholders fs' = _deleted_placeholders fs ∧
  current_language fs' = current_language fs ∧
  cache_ok fs'.
Proof.
  intros Hok. unfold desired_placeholder.
  destruct (_placeholders_by_slot fs !! s) as [q|] eqn:Hc.
  - intros [= <- <-]. destruct (Hok _ _ Hc). by split_and!.
  - destruct (get_by_slot _ s) as [e|q] eqn:Hg; [done|].
    intros [= <- <-]. apply get_by_slot_inr in Hg as [Hin Hs].
    split_and!; [done..|].
    intros s' p'. cbn [_placeholders_by_slot parent_placeholders].
    destruct (decide (s = s')) as [<-|Hne].
    + rewrite lookup_insert_eq. by intros [= <-].
    + rewrite lookup_insert_ne by done. apply Hok.
Qed.

Lemma desired_placeholder_resolves form fs :
  resolvable fs form → needs_fetch form →
  ∃ fs' p, desired_placeholder (cleaned_placeholder_slot form) fs = inr (fs', p).
Proof.
  intros Hres Hneed. unfold desired_placeholder.
  destruct (Hres Hneed) as [[p Hp]|[p Hp]].
  - rewrite Hp. eauto.
  - destruct (_placeholders_by_slot fs !! _); [eauto|]. rewrite Hp. eauto.
Qed.

(** [_set_placeholder_id] itself, for a form with a slot. *)
Lemma _set_placeholder_id_attributes fs form :
  cleaned_placeholder_slot form ≠ "" → cache_ok fs → resolvable fs form →
  ∃ fs' form',
    _set_placeholder_id form fs = inr (fs', form') ∧
    attributed fs form form' ∧
    cleaned_placeholder_slot form' = cleaned_placeholder_slot form ∧
    language_code (instance form') = language_code (instance form) ∧
    current_language fs' = current_language fs ∧
    cache_ok fs'.
Proof.
  intros Hslot Hok Hres. unfold _set_placeholder_id, attributed.
  rewrite decide_False by done.
  destruct (decide (needs_fetch form)) as [Hneed|Hkeep].
  - destruct (desired_placeholder_resolves form fs Hres Hneed) as (fs' & p & Hd).
    rewrite Hd. destruct (desired_placeholder_inr _ _ _ _ Hok Hd) as (?&?&?&?&?&?).
    exists fs', (assign (Some p) form). split_and!; [done| |done..].
    exists p. by split_and!.
  - destruct (decide (in_deleted (instance form) fs)).
    + exists fs, (assign None form). by split_and!.
    + exists fs, form. by split_and!.
Qed.

(** Without a placeholder to find, [_set_placeholder_id] raises. *)
Lemma _set_placeholder_id_raises fs form :
  cleaned_placeholder_slot form ≠ "" → ¬ resolvable fs form →
  ∃ e, _set_placeholder_id form fs = inl e.
Proof.
  intros Hslot Hnres. unfold _set_placeholder_id.
  rewrite decide_False by done.
  destruct (decide (needs_fetch form)) as [Hneed|Hkeep].
  - unfold desired_placeholder.
    destruct (_placeholders_by_slot fs !! _) as [p|] eqn:Hc.
    { exfalso. apply Hnres. intros _. left. eauto. }
    destruct (get_by_slot _ _) as [e|p] eqn:Hg; [eauto|].
    exfalso. apply Hnres. intros _. right. eauto.
  - exfalso. apply Hnres. by intros ?.
Qed.

(** C3, as amended.  Take a form with a non-empty [placeholder_slot].
    When the placeholder of that slot can be found where it is needed
    (in the cache, or as the one such row of the parent), [save_new] and
    [save_existing] with [commit] set go through, the row they save is
    [form.instance], and that row is attributed: to the parent's
    placeholder of the slot when none was selected or the selected one
    has another slot; to no placeholder when the selected one has the
    slot and the row's [placeholder_id] is among the deleted
    placeholders; and to the selected placeholder otherwise.  When it
    cannot be found, both raise the exception of the query, and
    nothing is assigned or saved. *)
Theorem save_attributes_row fs form db :
  cleaned_placeholder_slot form ≠ "" → cache_ok fs →
  (resolvable fs form →
     (∀ commit, ∃ fs' form',
        save_new form commit fs db
        = inr (fs', form', if commit then db ++ [instance form'] else db) ∧
        attributed fs form form' ∧
        language_code (instance form') = current_language fs ∧
        cache_ok fs') ∧
     (∃ fs' form',
        save_existing form true fs db = inr (fs', form', db ++ [instance form']) ∧
        attributed fs form form' ∧
        cache_ok fs')) ∧
  (¬ resolvable fs form →
     ∃ e, (∀ commit, save_new form commit fs db = inl e) ∧
          save_existing form true fs db = inl e).
Proof.
  intros Hslot Hok. split.
  - intros Hres.
    destruct (_set_placeholder_id_attributes fs form Hslot Hok Hres)
      as (fs' & form' & Hset & Hattr & Hs & Hlang & Hcur & Hok').
    split.
    + intros commit. unfold save_new. rewrite Hset.
      exists fs', (mkForm (cleaned_placeholder_slot form') (cleaned_placeholder form')
                     (set_language_code (current_language fs') (super_save_new form'))).
      split; [done|]. cbn [instance language_code set_language_code].
      split_and!; [|done..].
      unfold attributed in *. cbn [instance cleaned_placeholder placeholder placeholder_id
        set_language_code super_save_new].
      repeat case_decide; done.
    + unfold save_existing. rewrite Hset. by exists fs', form'.
  - intros Hnres.
    destruct (_set_placeholder_id_raises fs form Hslot Hnres) as [e He].
    exists e. unfold save_new, save_existing. by rewrite He.
Qed.

Lemma fs_page_cache_ok : cache_ok fs_page.
Proof. intros s p Hl. cbn in Hl. by rewrite lookup_empty in Hl. Qed.

Lemma form_new_resolvable : resolvable fs_page form_new.
Proof. intros _. right. by exists p_main. Qed.

Lemma form_unknown_not_resolvable : ¬ resolvable fs_page form_unknown.
Proof.
  intros Hres. destruct (Hres I) as [[p Hp]|[p Hp]]; [|done].
  cbn in Hp. by rewrite lookup_empty in Hp.
Qed.

Lemma save_attributes_row_witness :
  ((∀ commit, ∃ fs' form',
      save_new form_new commit fs_page []
      = inr (fs', form', if commit then [] ++ [instance form'] else []) ∧
      attributed fs_page form_new form' ∧
      language_code (instance form') = current_language fs_page ∧
      cache_ok fs') ∧
   (∃ fs' form',
      save_existing form_new true fs_page [] = inr (fs', form', [] ++ [instance form']) ∧
      attributed fs_page form_new form' ∧
      cache_ok fs')) ∧
  (∃ e, (∀ commit, save_new form_unknown commit fs_page [] = inl e) ∧
        save_existing form_unknown true fs_page [] = inl e).
Proof.
  split.
  - apply (save_attributes_row fs_page form_new []);
      [done|apply fs_page_cache_ok|apply form_new_resolvable].
  - apply (save_attributes_row fs_page form_unknown []);
      [done|apply fs_page_cache_ok|apply form_unknown_not_resolvable].
Defined.

(** C3, as first stated, fails: for a slot the parent has no
    placeholder for, the query raises [DoesNotExist]; no placeholder is
    assigned and no row is saved. *)
Lemma save_new_unknown_slot_raises :
  cleaned_placeholder_slot form_unknown ≠ "" ∧
  save_new form_unknown true fs_page [] = inl DoesNotExist ∧
  save_existing form_unknown true fs_page [] = inl DoesNotExist.
Proof. done. Qed.

(** What the row of [form_new] looks like after [save_new]. *)
Example save_new_form_new :
  save_new form_new true fs_page []
  = inr (mkFormSet [p_main; p_side] "en" [2] {[ "main" := p_main ]},
         mkForm "main" (Some p_main) (mkRow (Some p_main) (Some 1) "en"),
         [mkRow (Some p_main) (Some 1) "en"]).
Proof. reflexivity. Qed.

(** On a validated form the instance carries the selected placeholder;
    the test of the second case then reads the id of that placeholder. *)
Lemma in_deleted_selected fs form p :
  cleaned_placeholder form = Some p →
  placeholder_id (instance form) = pk <$> cleaned_placeholder form →
  in_deleted (instance form) fs ↔ pk p ∈ _deleted_placeholders fs.
Proof. intros Hp Hsync. unfold in_deleted. by rewrite Hsync, Hp. Qed.

End formset_facts.

(** ** The order of the form fields *)

Section formclass_facts.
Import FormClass.
Context {Field : Type}.
Implicit Types d : list (string * Field).

Example get_form_class_gist :
  get_form_class content_item_form_fields gist_form_fields
  = inr [("polymorphic_ctype", 0%nat); ("placeholder", 2%nat);
         ("placeholder_slot", 4%nat); ("parent_item", 5%nat);
         ("parent_item_uid", 6%nat); ("sort_order", 7%nat);
         ("gist_id", 1%nat); ("filename", 3%nat)].
Proof. reflexivity. Qed.

Lemma formclass_od_get_elem_of k v d :
  NoDup d.*1 → (k, v) ∈ d → od_get k d = Some v.
Proof.
  induction d as [|[k0 v0] d IH]; simpl; intros Hnd Hin.
  - by apply elem_of_nil in Hin.
  - apply NoDup_cons in Hnd as [Hk0 Hnd].
    apply elem_of_cons in Hin as [Heq|Hin]; simplify_eq.
    + by rewrite decide_True.
    + rewrite decide_False; [auto|].
      intros ->. apply Hk0. apply list_elem_of_fmap. by exists (k, v).
Qed.

Lemma formclass_od_get_Some k v d : od_get k d = Some v → (k, v) ∈ d.
Proof.
  induction d as [|[k0 v0] d IH]; simpl; [done|].
  case_decide; intros; simplify_eq; [left|right; auto].
Qed.

Lemma formclass_od_get_is_Some k d : k ∈ d.*1 → is_Some (od_get k d).
Proof.
  induction d as [|[k0 v0] d IH]; simpl.
  - by intros ?%elem_of_nil.
  - intros [->|Hin]%elem_of_cons; [by rewrite decide_True|].
    case_decide; [done|auto].
Qed.

Lemma pairs_in_order_app o1 o2 d l1 l2 :
  pairs_in_order o1 d = inr l1 → pairs_in_order o2 d = inr l2 →
  pairs_in_order (o1 ++ o2) d = inr (l1 ++ l2).
Proof.
  revert l1. induction o1 as [|k o1 IH]; simpl; intros l1.
  - by intros [= <-].
  - destruct (od_get k d) as [v|]; [|done].
    destruct (pairs_in_order o1 d) as [e|l] eqn:Hl; [done|].
    intros [= <-] H2. by rewrite (IH l eq_refl H2).
Qed.

(** Looking up names that are all present gives their pairs. *)
Lemma pairs_in_order_present o d :
  Forall (λ k, k ∈ d.*1) o →
  ∃ l, pairs_in_order o d = inr l ∧ l.*1 = o ∧ Forall (λ kv, kv ∈ d) l.
Proof.
  induction 1 as [|k o Hk Ho (l & Hl & Hkeys & Hin)]; simpl.
  - by exists [].
  - destruct (formclass_od_get_is_Some k d Hk) as [v Hv]. rewrite Hv, Hl.
    exists ((k, v) :: l). split_and!; [done|by rewrite fmap_cons, Hkeys|].
    constructor; [by apply formclass_od_get_Some|done].
Qed.

(** Looking up the names of a part of the dict gives that part. *)
Lemma pairs_in_order_sublist l d :
  NoDup d.*1 → Forall (λ kv, kv ∈ d) l → pairs_in_order l.*1 d = inr l.
Proof.
  intros Hnd. induction 1 as [|[k v] l Hkv Hl IH]; [done|].
  rewrite fmap_cons. cbn [pairs_in_order fst].
  by rewrite (formclass_od_get_elem_of k v d Hnd Hkv), IH.
Qed.

Lemma od_set_fresh k (v : Field) d : k ∉ d.*1 → od_set k v d = d ++ [(k, v)].
Proof.
  induction d as [|[k0 v0] d IH]; simpl; [done|].
  rewrite not_elem_of_cons. intros [Hne Hd].
  rewrite decide_False by done. by rewrite IH.
Qed.

Lemma od_of_pairs_NoDup d : NoDup d.*1 → od_of_pairs d = d.
Proof.
  unfold od_of_pairs.
  induction d as [|[k v] d IH] using rev_ind; [done|].
  rewrite fmap_app, foldl_snoc. intros [Hd [Hdisj _]]%NoDup_app.
  rewrite IH by done. apply od_set_fresh.
  intros Hin. apply (Hdisj k Hin). left.
Qed.

Lemma fmap_fst_filter (first : list string) d :
  (filter (λ kv, kv.1 ∉ first) d).*1 = filter (λ f, f ∉ first) d.*1.
Proof.
  induction d as [|[k v] d IH]; [done|].
  rewrite fmap_cons, !filter_cons. cbn [fst].
  case_decide; by rewrite ?fmap_cons, IH.
Qed.

(** C5.  When the generated form has all the fields of
    [ContentItemForm], [get_form_class] gives it a [base_fields] that
    starts with those common fields in [ContentItemForm]'s order,
    continues with the remaining fields in the order they had, and is a
    permutation of the original pairs: every name keeps the field
    object it had in the generated form. *)
Theorem get_form_class_reorders (cif form_fields : list (string * Field)) :
  NoDup (keys cif) → NoDup (keys form_fields) →
  keys cif ⊆ keys form_fields →
  ∃ common,
    get_form_class cif form_fields
    = inr (common ++ filter (λ kv, kv.1 ∉ keys cif) form_fields) ∧
    keys common = keys cif ∧
    Forall (λ kv, kv ∈ form_fields) common ∧
    common ++ filter (λ kv, kv.1 ∉ keys cif) form_fields ≡ₚ form_fields.
Proof.
  intros Hcif Hform Hsub. unfold keys in *.
  set (first_fields := cif.*1) in *.
  set (others := filter (λ kv, kv.1 ∉ first_fields) form_fields).
  destruct (pairs_in_order_present first_fields form_fields)
    as (common & Hcommon & Hkeys & Hin).
  { apply Forall_forall. intros k Hk. by apply Hsub. }
  assert (Forall (λ kv, kv ∈ form_fields) others) as Hothers.
  { apply Forall_forall. intros kv Hkv. unfold others in Hkv.
    by apply list_elem_of_filter in Hkv as [_ ?]. }
  assert (pairs_in_order (filter (λ f, f ∉ first_fields) form_fields.*1) form_fields
          = inr others) as Hrest.
  { rewrite <- fmap_fst_filter. by apply pairs_in_order_sublist. }
  assert (NoDup (common ++ others).*1) as Hnd.
  { rewrite fmap_app, Hkeys. apply NoDup_app. split_and!; [done| |].
    - intros k Hk Hk'. unfold others in Hk'.
      rewrite fmap_fst_filter in Hk'. by apply list_elem_of_filter in Hk' as [? _].
    - unfold others. rewrite fmap_fst_filter. by apply NoDup_filter. }
  exists common. split_and!; [|done..|].
  - unfold get_form_class, keys. fold first_fields.
    rewrite (pairs_in_order_app _ _ _ _ _ Hcommon Hrest).
    by rewrite od_of_pairs_NoDup.
  - apply NoDup_Permutation.
    + by eapply NoDup_fmap_1.
    + by eapply NoDup_fmap_1.
    + intros [k v]. rewrite elem_of_app. split.
      * rewrite Forall_forall in Hin, Hothers. intros [?|?]; auto.
      * intros Hkv. destruct (decide (k ∈ first_fields)) as [Hk|Hk].
        -- left. rewrite <- Hkeys in Hk.
           apply list_elem_of_fmap in Hk as ([k' v'] & -> & Hkv').
           rewrite Forall_forall in Hin. pose proof (Hin _ Hkv') as Hf.
           cbn [fst] in *.
           apply (formclass_od_get_elem_of _ _ _ Hform) in Hf, Hkv.
           by simplify_eq.
        -- right. unfold others. by apply list_elem_of_filter.
Qed.

End formclass_facts.

Lemma get_form_class_reorders_witness :
  ∃ common,
    FormClass.get_form_class FormClass.content_item_form_fields FormClass.gist_form_fields
    = inr (common ++ filter (λ kv, kv.1 ∉ FormClass.keys FormClass.content_item_form_fields)
                            FormClass.gist_form_fields) ∧
    FormClass.keys common = FormClass.keys FormClass.content_item_form_fields ∧
    Forall (λ kv, kv ∈ FormClass.gist_form_fields) common ∧
    common ++ filter (λ kv, kv.1 ∉ FormClass.keys FormClass.content_item_form_fields)
                     FormClass.gist_form_fields
    ≡ₚ FormClass.gist_form_fields.
Proof.
  apply (get_form_class_reorders FormClass.content_item_form_fields
           FormClass.gist_form_fields).
  - compute_done.
  - compute_done.
  - compute_done.
Defined.

(** ** The inlines *)

Section inlines_facts.
Import Inlines.

Lemma create_inline_for_plugin_Plugin p base :
  ∃ c, create_inline_for_plugin (Plugin p) base = inr c ∧
       class_name c = model p +:+ "_AutoChildInline" ∧
       bases c = [base] ∧
       get_content_item_admin_options (Plugin p) = inr (attrs c).
Proof. by eexists. Qed.

Lemma copy_fields_app p names attrs0 :
  ∃ copied,
    foldl (λ attrs name,
             if truthy (copy_field p name)
             then attrs ++ [(name, AObj (copy_field p name))]
             else attrs) attrs0 names
    = attrs0 ++ copied.
Proof.
  revert attrs0. induction names as [|n names IH]; intros attrs0.
  - exists []. by rewrite app_nil_r.
  - cbn [foldl]. destruct (truthy (copy_field p n)).
    + destruct (IH (attrs0 ++ [(n, AObj (copy_field p n))])) as [copied ->].
      eexists. by rewrite <- app_assoc.
    + apply IH.
Qed.

(** The class made for a plugin: named after the plugin's model, on the
    given base, and with the plugin and its model in the dict. *)
Lemma create_inline_for_plugin_class p base c :
  create_inline_for_plugin (Plugin p) base = inr c →
  class_name c = model p +:+ "_AutoChildInline" ∧
  bases c = [base] ∧
  get_content_item_admin_options (Plugin p) = inr (attrs c) ∧
  class_model c = Some (model p) ∧
  ("model", AModel (model p)) ∈ attrs c ∧
  ("plugin", APlugin p) ∈ attrs c.
Proof.
  intros [= <-]. cbn [class_name bases attrs]. split_and!; [done..| | |].
  - unfold class_model, copy_fields. cbn [attrs].
    destruct (copy_fields_app p COPY_FIELDS
                [("__module__", AStr (class_module p)); ("model", AModel (model p));
                 ("name", AObj (verbose_name p)); ("plugin", APlugin p);
                 ("type_name", AStr (type_name p));
                 ("cp_admin_form_template", AObj (admin_form_template p));
                 ("cp_admin_init_template", AObj (admin_init_template p));
                 ("extra_fieldsets", ATuple (fieldsets p))]) as [copied ->].
    done.
  - unfold copy_fields. destruct (copy_fields_app p COPY_FIELDS
                [("__module__", AStr (class_module p)); ("model", AModel (model p));
                 ("name", AObj (verbose_name p)); ("plugin", APlugin p);
                 ("type_name", AStr (type_name p));
                 ("cp_admin_form_template", AObj (admin_form_template p));
                 ("cp_admin_init_template", AObj (admin_init_template p));
                 ("extra_fieldsets", ATuple (fieldsets p))]) as [copied ->].
    apply elem_of_app. left. apply elem_of_cons. right. apply elem_of_cons. by left.
  - unfold copy_fields. destruct (copy_fields_app p COPY_FIELDS
                [("__module__", AStr (class_module p)); ("model", AModel (model p));
                 ("name", AObj (verbose_name p)); ("plugin", APlugin p);
                 ("type_name", AStr (type_name p));
                 ("cp_admin_form_template", AObj (admin_form_template p));
                 ("cp_admin_init_template", AObj (admin_init_template p));
                 ("extra_fieldsets", ATuple (fieldsets p))]) as [copied ->].
    apply elem_of_app. left. do 3 (apply elem_of_cons; right). apply elem_of_cons. by left.
Qed.

Lemma make_child_inlines_plugins ps child_base :
  ∃ cs, make_child_inlines (as_candidates ps) child_base = inr cs ∧
        Forall2 (λ p c, create_inline_for_plugin (Plugin p) child_base = inr c) ps cs.
Proof.
  induction ps as [|p ps (cs & Hcs & Hall)].
  - by exists [].
  - destruct (create_inline_for_plugin_Plugin p child_base) as (c & Hc & _).
    exists (c :: cs). unfold as_candidates in *. rewrite fmap_cons.
    cbn [make_child_inlines].
    rewrite Hc, Hcs. split; [done|]. by constructor.
Qed.

(** C7.  For a list of plugins, or for the pool when no list is given,
    [get_content_item_inlines] returns one parent inline class, named
    [ContentItemParentInline] on [parent_base]: its model is
    [ContentItem], its [plugins] are the given ones, and its
    [child_inlines] hold, plugin by plugin and in the same order, the
    class [create_inline_for_plugin] makes for the plugin on
    [child_base].  That class is named after the plugin's model, has
    [child_base] as its base, and its dict is the plugin's admin
    options, with the plugin itself and the plugin's model as [model];
    so the one parent has a child inline for the model of every
    plugin. *)
Theorem get_content_item_inlines_one_parent
    (pool : list ContentPlugin) (given : option (list ContentPlugin))
    (parent_base child_base : string) :
  let ps := default pool given in
  ∃ parent,
    get_content_item_inlines (as_candidates pool) (as_candidates <$> given)
      parent_base child_base = inr [parent] ∧
    parent_class_name parent = "ContentItemParentInline" ∧
    parent_bases parent = [parent_base] ∧
    parent_model parent = ContentItem ∧
    plugins parent = as_candidates ps ∧
    length (child_inlines parent) = length ps ∧
    Forall2 (λ p c, create_inline_for_plugin (Plugin p) child_base = inr c ∧
                    class_name c = model p +:+ "_AutoChildInline" ∧
                    bases c = [child_base] ∧
                    get_content_item_admin_options (Plugin p) = inr (attrs c) ∧
                    class_model c = Some (model p) ∧
                    ("model", AModel (model p)) ∈ attrs c ∧
                    ("plugin", APlugin p) ∈ attrs c)
            ps (child_inlines parent) ∧
    (∀ p, p ∈ ps →
       ∃ c, c ∈ child_inlines parent ∧ class_model c = Some (model p) ∧
            ("plugin", APlugin p) ∈ attrs c).
Proof.
  intros ps.
  destruct (make_child_inlines_plugins ps child_base) as (cs & Hcs & Hall).
  assert (Forall2 (λ p c, create_inline_for_plugin (Plugin p) child_base = inr c ∧
                          class_name c = model p +:+ "_AutoChildInline" ∧
                          bases c = [child_base] ∧
                          get_content_item_admin_options (Plugin p) = inr (attrs c) ∧
                          class_model c = Some (model p) ∧
                          ("model", AModel (model p)) ∈ attrs c ∧
                          ("plugin", APlugin p) ∈ attrs c) ps cs) as Hpinned.
  { eapply Forall2_impl; [exact Hall|]. intros p c Hc.
    split; [done|]. by apply create_inline_for_plugin_class. }
  exists (mkParent "ContentItemParentInline" [parent_base] ContentItem (as_candidates ps) cs).
  split_and!; try done.
  - unfold get_content_item_inlines.
    replace (match as_candidates <$> given with Some l => l | None => as_candidates pool end)
      with (as_candidates ps) by (by destruct given).
    by rewrite Hcs.
  - cbn [child_inlines]. symmetry. by eapply Forall2_length.
  - intros p Hp. cbn [child_inlines].
    apply list_elem_of_lookup in Hp as [i Hi].
    destruct (Forall2_lookup_l _ _ _ _ _ Hpinned Hi) as (c & Hc & _ & _ & _ & _ & Hm & _ & Hpl).
    exists c. split_and!; [|done..]. apply list_elem_of_lookup. eauto.
Qed.

Example get_content_item_inlines_two :
  get_content_item_inlines [] (Some [Plugin gist_plugin; Plugin text_plugin])
    BaseContentItemParentInline BaseContentItemChildInline
  = inr [mkParent "ContentItemParentInline" ["BaseContentItemParentInline"] "ContentItem"
           [Plugin gist_plugin; Plugin text_plugin]
           [mkClass "GistItem_AutoChildInline" ["BaseContentItemChildInline"]
              [("__module__", AStr "fluent_contents.plugins.gist.content_plugins");
               ("model", AModel "GistItem");
               ("name", AObj (mkObj true "GitHub Gist snippet"));
               ("plugin", APlugin gist_plugin);
               ("type_name", AStr "GistItem");
               ("cp_admin_form_template", AObj unset);
               ("cp_admin_init_template", AObj unset);
               ("extra_fieldsets", ATuple [])];
            mkClass "TextItem_AutoChildInline" ["BaseContentItemChildInline"]
              [("__module__", AStr "fluent_contents.plugins.text.content_plugins");
               ("model", AModel "TextItem");
               ("name", AObj (mkObj true "Text"));
               ("plugin", APlugin text_plugin);
               ("type_name", AStr "TextItem");
               ("cp_admin_form_template", AObj unset);
               ("cp_admin_init_template", AObj unset);
               ("extra_fieldsets", ATuple []);
               ("form", AObj (mkObj true "TextItemForm"));
               ("raw_id_fields", AObj (mkObj true "('author',)"))]]].
Proof. reflexivity. Qed.

(** Something that is no [ContentPlugin] is refused; a dict is refused
    by the cache before that. *)
Example get_content_item_inlines_refuses :
  get_content_item_inlines [] (Some [Plugin gist_plugin; NotAPlugin unset])
    BaseContentItemParentInline BaseContentItemChildInline
  = inl (TypeError "get_content_item_inlines() expects to receive ContentPlugin instances, not None") ∧
  get_content_item_inlines [] (Some [Plugin gist_plugin; Unhashable "dict" (mkObj false "{}")])
    BaseContentItemParentInline BaseContentItemChildInline
  = inl (TypeError "unhashable type: 'dict'").
Proof. done. Qed.

End inlines_facts.

(** ** [PlaceholderData] *)

Section placeholderdata_facts.
Import PlaceholderData.
Context (MAIN SIDEBAR RELATED : string) (ROLES : list (string * string)).

Lemma aliases_get_resolved role :
  aliases_get MAIN SIDEBAR RELATED role (str_or role MAIN)
  = resolved_role MAIN SIDEBAR RELATED role.
Proof.
  destruct role as [r|]; [|done].
  unfold aliases_get, resolved_role, ROLE_ALIASES, str_or.
  cbn [list_find fmap option_fmap option_map fst snd].
  repeat (case_decide; simplify_eq; try done).
Qed.


Lemma dict_keys_elem_of (pairs : list (string * string)) seen k :
  k ∈ dict_keys pairs seen ↔ k ∈ seen ∨ k ∈ pairs.*1.
Proof.
  revert seen. induction pairs as [|[k0 v0] pairs IH]; intros seen; simpl.
  - rewrite elem_of_nil. tauto.
  - rewrite IH, elem_of_cons. case_decide as Hin.
    + split; [tauto|]. intros [?|[->|?]]; auto.
    + rewrite elem_of_app, list_elem_of_singleton. tauto.
Qed.

Lemma _ALLOWED_ROLES_elem_of k : k ∈ _ALLOWED_ROLES ROLES ↔ k ∈ ROLES.*1.
Proof.
  unfold _ALLOWED_ROLES. rewrite dict_keys_elem_of, elem_of_nil. tauto.
Qed.

(** C10.  [PlaceholderData(slot, title, role, fallback_language)] raises
    [ValueError] exactly when [slot] is falsy, or the role, once the
    aliases are resolved and a missing role has become
    [Placeholder.MAIN], is not a role of [Placeholder.ROLES].  When an
    object is made, its slot and role are those, its title is [slot]
    unless a title was given, and its [fallback_language] is [None]
    unless a non-empty one was given. *)
Theorem PlaceholderData_init_ValueError (slot title role fallback_language : option string) :
  let result := __init__ MAIN SIDEBAR RELATED ROLES slot title role fallback_language in
  let the_role := resolved_role MAIN SIDEBAR RELATED role in
  ((∃ msg, result = inl (ValueError msg)) ↔
     ¬ truthy slot ∨ the_role ∉ ROLES.*1) ∧
  (∀ pd, result = inr pd →
     PlaceholderData.slot pd = slot ∧
     PlaceholderData.role pd = the_role ∧
     (title = None → PlaceholderData.title pd = slot) ∧
     (truthy title → PlaceholderData.title pd = title) ∧
     (¬ truthy fallback_language → PlaceholderData.fallback_language pd = None) ∧
     (truthy fallback_language → PlaceholderData.fallback_language pd = fallback_language)).
Proof.
  intros result the_role. subst result the_role. unfold __init__.
  rewrite aliases_get_resolved.
  destruct (decide (truthy slot)) as [Hslot|Hslot].
  - destruct (decide (_ ∈ _ALLOWED_ROLES ROLES)) as [Hrole|Hrole].
    + split.
      * split; [by intros [? ?]|]. intros [?|Hn]; [done|].
        by apply _ALLOWED_ROLES_elem_of in Hrole.
      * intros pd [= <-]. cbn [PlaceholderData.slot PlaceholderData.role
          PlaceholderData.title PlaceholderData.fallback_language].
        unfold py_or. split_and!; try done.
        -- by intros ->.
        -- intros Ht. by rewrite decide_True.
        -- intros Hf. by rewrite decide_False.
        -- intros Hf. by rewrite decide_True.
    + split; [|done]. split; [|by eexists]. intros _. right.
      by rewrite <- _ALLOWED_ROLES_elem_of.
  - split; [|done]. split; [auto|by eexists].
Qed.

End placeholderdata_facts.

(** With the sample roles: an alias, a missing role, a role code and an
    unknown role. *)
Example PlaceholderData_samples :
  let init := PlaceholderData.__init__ "m" "s" "r" PlaceholderData.sample_roles in
  init (Some "main") None (Some "sidebar") None
    = inr (PlaceholderData.mkData (Some "main") (Some "main") "s" None) ∧
  init (Some "main") (Some "Main column") None (Some "")
    = inr (PlaceholderData.mkData (Some "main") (Some "Main column") "m" None) ∧
  init (Some "side") None (Some "r") (Some "en")
    = inr (PlaceholderData.mkData (Some "side") (Some "side") "r" (Some "en")) ∧
  init (Some "main") None (Some "footer") None
    = inl (PlaceholderData.ValueError
             "Invalid role 'footer' for placeholder 'main': allowed are: main, sidebar, related.") ∧
  init (Some "") None None None
    = inl (PlaceholderData.ValueError "Slot not defined for placeholder!").
Proof. by split_and!. Qed.

(** ** More on [ContentItemTree.from_list] *)

Section tree_more.
Import Tree.

(** What a successful run on a non-empty list leaves behind, with the
    sorted lists written out. *)
Lemma from_list_returns h items top ph parent :
  items ≠ [] → from_list_pre h items top →
  ∃ h',
    from_list items top ph parent h
    = (h', inr (mkTree (list_sort (λ r, sort_order (h r)) (group h items top))
                  (Some items) ph parent)) ∧
    same_columns h h' ∧
    (∀ kz, Some kz ≠ top → group h items (Some kz) ≠ [] →
       ∃ p, item_with_id h items kz = Some p ∧
            _children (h' p)
            = Some (mkTree (list_sort (λ r, sort_order (h r)) (group h items (Some kz)))
                      None ph (Some p))) ∧
    (∀ r, (∀ kz, Some kz ≠ top → group h items (Some kz) ≠ [] →
                 item_with_id h items kz ≠ Some r) →
          h' r = h r).
Proof.
  intros Hne Hpre.
  pose proof (from_list_pre_resolves _ _ _ Hpre) as Hres.
  destruct Hpre as [?|[Hroot _]]; [done|].
  destruct (set_all_children_ok ph (index_items h items).2 top
              (index_items h items).1 h)
    as (h' & Hrun & Hcol & Hch & Hfr);
    [apply index_items_keys_NoDup|apply index_items_lookup_id|exact Hres|].
  rewrite from_list_nonempty, Hrun, index_items_parents by done.
  apply group_nonempty in Hroot. rewrite decide_False by done.
  exists h'. split_and!; [|done| |].
  - do 3 f_equal. apply list_sort_ext. intros r. by destruct (Hcol r) as (_ & _ & ->).
  - intros kz Hkz Hg.
    assert ((Some kz, group h items (Some kz)) ∈ (index_items h items).1)
      as Hin by (by apply index_items_entry).
    destruct (Hres _ _ Hin Hkz) as [p Hp]. exists p.
    rewrite (Hch _ _ _ Hin Hkz Hp). by rewrite index_items_lookup in Hp.
  - intros r Hr. apply Hfr. intros kz g Hin Hkz.
    apply index_items_entry in Hin as [-> Hg].
    rewrite index_items_lookup. by apply Hr.
Qed.

(** A loop that raised did so on a parent id that [lookup] lacks. *)
Lemma set_all_children_Some ph lookup top d h h' e :
  set_all_children ph lookup top d h = (h', Some e) →
  ∃ kz g, e = KeyError (Some kz) ∧ (Some kz, g) ∈ d ∧
          Some kz ≠ top ∧ lookup !! kz = None.
Proof.
  revert h. induction d as [|[k g] d IH]; intros h Hrun; [done|].
  cbn [set_all_children] in Hrun.
  assert (∀ h0, set_all_children ph lookup top d h0 = (h', Some e) →
            ∃ kz g0, e = KeyError (Some kz) ∧ (Some kz, g0) ∈ (k, g) :: d ∧
                     Some kz ≠ top ∧ lookup !! kz = None) as Hrest.
  { intros h0 H0. destruct (IH h0 H0) as (kz & g0 & ? & ? & ? & ?).
    exists kz, g0. split_and!; [done|by right|done..]. }
  destruct k as [pid|]; [|by eapply Hrest].
  destruct (decide (Some pid ≠ top)) as [Hne|]; [|by eapply Hrest].
  destruct (lookup !! pid) as [p|] eqn:Hp; [by eapply Hrest|].
  injection Hrun as <- <-. exists pid, g. split_and!; [done|left|done..].
Qed.

(** The key of the [KeyError]: a parent id that some item names and no
    item has as its id, or [top_parent_id] itself when no item of the
    list is directly under it. *)
Theorem from_list_KeyError_key h items top ph parent h' k :
  from_list items top ph parent h = (h', inl (KeyError k)) →
  items ≠ [] ∧
  ((∃ kz, k = Some kz ∧ Some kz ≠ top ∧
          Exists (λ r, parent_item_id (h r) = Some kz) items ∧
          ¬ Exists (λ j, id (h j) = kz) items) ∨
   (k = top ∧ ¬ Exists (λ r, parent_item_id (h r) = top) items)).
Proof.
  intros Hrun.
  assert (items ≠ []) as Hne by (by intros ->).
  split; [done|]. rewrite from_list_nonempty in Hrun by done.
  destruct (set_all_children _ _ _ _ _) as [h1 [e|]] eqn:Hloop.
  - injection Hrun as <- ->.
    apply set_all_children_Some in Hloop as (kz & g & [= ->] & Hin & Hkz & Hlk).
    left. exists kz. apply index_items_entry in Hin as [-> Hg].
    split_and!; [done..|by apply group_nonempty|].
    rewrite <- item_with_id_is_Some, <- index_items_lookup, Hlk.
    by intros [? ?].
  - rewrite index_items_parents in Hrun. case_decide as Hg; [|done].
    injection Hrun as <- <-. right. split; [done|].
    rewrite <- group_nonempty. by intros ?.
Qed.

Lemma from_list_KeyError_key_witness :
  [1%nat] ≠ [] ∧
  ((∃ kz, Some 10 = Some kz ∧ Some kz ≠ None ∧
          Exists (λ r, parent_item_id (h_family r) = Some kz) [1%nat] ∧
          ¬ Exists (λ j, id (h_family j) = kz) [1%nat]) ∨
   (Some 10 = None ∧ ¬ Exists (λ r, parent_item_id (h_family r) = None) [1%nat])).
Proof.
  apply (from_list_KeyError_key h_family [1%nat] None None None h_family (Some 10)).
  reflexivity.
Defined.


(** Every item ends up where its [parent_item_id] says.  After a
    successful run on a non-empty list: an item directly under
    [top_parent_id] is a root; an item with another parent id is among
    the children attached to the item that has this id; and an item
    without a parent, when [top_parent_id] is given, is neither a root
    nor in any group the call attached, though it stays in
    [flat_items]. *)
Theorem from_list_places_items h items top ph parent :
  items ≠ [] → from_list_pre h items top →
  ∃ h' t,
    from_list items top ph parent h = (h', inr t) ∧
    flat_items t = Some items ∧
    ∀ r, r ∈ items →
      (parent_item_id (h r) = top → r ∈ tree_items t) ∧
      (∀ kz, parent_item_id (h r) = Some kz → Some kz ≠ top →
         ∃ p c, p ∈ items ∧ id (h p) = kz ∧
                _children (h' p) = Some c ∧ r ∈ tree_items c ∧
                parent_item c = Some p) ∧
      (parent_item_id (h r) = None → top ≠ None →
         (r ∉ tree_items t) ∧
         ∀ kz p c, Some kz ≠ top → group h items (Some kz) ≠ [] →
                   item_with_id h items kz = Some p →
                   _children (h' p) = Some c → r ∉ tree_items c).
Proof.
  intros Hne Hpre.
  destruct (from_list_returns h items top ph parent Hne Hpre)
    as (h' & Hrun & Hcol & Hch & Hfr).
  eexists h', _. split; [exact Hrun|]. split; [done|].
  intros r Hr. cbn [tree_items]. split_and!.
  - intros Hp. apply list_sort_elem_of. by apply list_elem_of_filter.
  - intros kz Hp Hkz.
    assert (r ∈ group h items (Some kz)) as Hin by (by apply list_elem_of_filter).
    destruct (Hch kz Hkz) as (p & Hlk & Hc).
    { intros Hnil. rewrite Hnil in Hin. by apply elem_of_nil in Hin. }
    destruct (item_with_id_Some _ _ _ _ Hlk) as [? ?].
    eexists p, _. split_and!; [done..|exact Hc| |done].
    by apply list_sort_elem_of.
  - intros Hp Htop. split.
    + rewrite list_sort_elem_of. unfold group. rewrite list_elem_of_filter.
      intros [? _]. congruence.
    + intros kz p c Hkz Hg Hlk Hc.
      destruct (Hch kz Hkz Hg) as (p' & Hlk' & Hc').
      assert (p' = p) as -> by congruence.
      rewrite Hc' in Hc. injection Hc as <-. cbn [tree_items].
      rewrite list_sort_elem_of. unfold group. rewrite list_elem_of_filter.
      intros [? _]. congruence.
Qed.

Lemma from_list_places_items_witness :
  ∃ h' t,
    from_list [0; 1; 2]%nat None None None h_family = (h', inr t) ∧
    flat_items t = Some [0; 1; 2]%nat ∧
    ∀ r, r ∈ [0; 1; 2]%nat →
      (parent_item_id (h_family r) = None → r ∈ tree_items t) ∧
      (∀ kz, parent_item_id (h_family r) = Some kz → Some kz ≠ None →
         ∃ p c, p ∈ [0; 1; 2]%nat ∧ id (h_family p) = kz ∧
                _children (h' p) = Some c ∧ r ∈ tree_items c ∧
                parent_item c = Some p) ∧
      (parent_item_id (h_family r) = None → (None : option Z) ≠ None →
         (r ∉ tree_items t) ∧
         ∀ kz p c, Some kz ≠ None → group h_family [0; 1; 2]%nat (Some kz) ≠ [] →
                   item_with_id h_family [0; 1; 2]%nat kz = Some p →
                   _children (h' p) = Some c → r ∉ tree_items c).
Proof.
  apply (from_list_places_items h_family [0; 1; 2]%nat None None None);
    [done|apply h_family_pre].
Defined.

(** *** Building the tree a second time *)

Lemma group_same_columns h h' items k :
  same_columns h h' → group h' items k = group h items k.
Proof.
  intros Hcol. unfold group. apply list_filter_iff.
  intros r. by destruct (Hcol r) as (_ & -> & _).
Qed.

Lemma item_with_id_same_columns h h' items k :
  same_columns h h' → item_with_id h' items k = item_with_id h items k.
Proof.
  intros Hcol. unfold item_with_id. f_equal. apply list_filter_iff.
  intros r. by destruct (Hcol r) as (-> & _).
Qed.

Lemma from_list_pre_same_columns h h' items top :
  same_columns h h' → from_list_pre h items top → from_list_pre h' items top.
Proof.
  intros Hcol [?|[Hroot Hall]]; [by left|right]. split.
  - eapply Exists_impl; [exact Hroot|]. intros r Hr.
    by destruct (Hcol r) as (_ & -> & _).
  - eapply Forall_impl; [exact Hall|]. intros r Hr k Hk Hkz.
    destruct (Hcol r) as (_ & Hp & _). rewrite Hp in Hk.
    eapply Exists_impl; [exact (Hr k Hk Hkz)|]. intros j Hj.
    by destruct (Hcol j) as (-> & _).
Qed.

Lemma ContentItem_eq (a b : ContentItem) :
  id a = id b → parent_item_id a = parent_item_id b →
  sort_order a = sort_order b → _children a = _children b → a = b.
Proof. destruct a, b. simpl. by intros -> -> -> ->. Qed.

(** [from_list] can be repeated: run again on the same list, in the
    store the first run left, it returns the same tree and leaves every
    item as the first run left it. *)
Theorem from_list_again h items top ph parent :
  from_list_pre h items top →
  ∃ h' h'' t,
    from_list items top ph parent h = (h', inr t) ∧
    from_list items top ph parent h' = (h'', inr t) ∧
    ∀ r, h'' r = h' r.
Proof.
  intros Hpre.
  destruct (decide (items = [])) as [->|Hne].
  { by eexists h, h, _. }
  destruct (from_list_returns h items top ph parent Hne Hpre)
    as (h' & Hrun & Hcol & Hch & Hfr).
  pose proof (from_list_pre_same_columns _ _ _ _ Hcol Hpre) as Hpre'.
  destruct (from_list_returns h' items top ph parent Hne Hpre')
    as (h'' & Hrun' & Hcol' & Hch' & Hfr').
  assert (∀ k, list_sort (λ r, sort_order (h' r)) (group h' items k)
             = list_sort (λ r, sort_order (h r)) (group h items k)) as Hsort.
  { intros k. rewrite (group_same_columns _ _ _ _ Hcol).
    apply list_sort_ext. intros r. by destruct (Hcol r) as (_ & _ & ->). }
  eexists h', h'', _. split; [exact Hrun|]. split.
  { rewrite Hrun'. by rewrite Hsort. }
  intros r.
  destruct (decide (Some (id (h r)) ≠ top ∧ group h items (Some (id (h r))) ≠ [] ∧
                    item_with_id h items (id (h r)) = Some r)) as [(Hkz & Hg & Hlk)|Hno].
  - destruct (Hch _ Hkz Hg) as (p & Hp & Hc).
    assert (p = r) as -> by congruence.
    destruct (Hch' (id (h r))) as (p' & Hp' & Hc'); [done| |].
    { by rewrite (group_same_columns _ _ _ _ Hcol). }
    rewrite (item_with_id_same_columns _ _ _ _ Hcol) in Hp'.
    assert (p' = r) as -> by congruence.
    destruct (Hcol' r) as (? & ? & ?).
    apply ContentItem_eq; [done..|]. by rewrite Hc, Hc', Hsort.
  - apply Hfr'. intros kz Hkz Hg Hlk.
    rewrite (group_same_columns _ _ _ _ Hcol) in Hg.
    rewrite (item_with_id_same_columns _ _ _ _ Hcol) in Hlk.
    destruct (item_with_id_Some _ _ _ _ Hlk) as [_ <-]. by apply Hno.
Qed.

Lemma from_list_again_witness :
  ∃ h' h'' t,
    from_list [0; 1; 2]%nat None None None h_family = (h', inr t) ∧
    from_list [0; 1; 2]%nat None None None h' = (h'', inr t) ∧
    ∀ r, h'' r = h' r.
Proof. exact (from_list_again h_family [0; 1; 2]%nat None None None h_family_pre). Defined.


(** *** The order of the input list *)

Lemma group_Permutation h items items' k :
  items ≡ₚ items' → group h items k ≡ₚ group h items' k.
Proof. intros Hp. unfold group. by rewrite Hp. Qed.

Lemma from_list_pre_Permutation h items items' top :
  items ≡ₚ items' → from_list_pre h items top → from_list_pre h items' top.
Proof.
  intros Hp [->|[Hroot Hall]].
  { left. by apply Permutation_nil. }
  right. split.
  - apply Exists_exists in Hroot as (r & Hr & Hk). apply Exists_exists.
    exists r. by rewrite <- Hp.
  - rewrite Forall_forall in Hall |- *. intros r Hr k Hk Hkz.
    rewrite <- Hp in Hr. specialize (Hall r Hr k Hk Hkz).
    apply Exists_exists in Hall as (j & Hj & Hid). apply Exists_exists.
    exists j. by rewrite <- Hp.
Qed.

(** With unique ids, [lookup] does not depend on the order. *)
Lemma item_with_id_Permutation h items items' k :
  items ≡ₚ items' →
  (∀ r1 r2, r1 ∈ items → r2 ∈ items → id (h r1) = id (h r2) → r1 = r2) →
  item_with_id h items' k = item_with_id h items k.
Proof.
  intros Hp Huniq. unfold item_with_id.
  assert (∀ l l' : list ref, l ≡ₚ l' → (∀ x y, x ∈ l → y ∈ l → x = y) →
            last l' = last l) as Hlast.
  { intros l l' Hll Hall.
    destruct (last l) as [x|] eqn:Hx, (last l') as [y|] eqn:Hy; [|exfalso..|done].
    - f_equal. apply last_Some_elem_of in Hx, Hy. rewrite <- Hll in Hy. by apply Hall.
    - apply last_None in Hy. subst l'. apply Permutation_nil_r in Hll. by subst.
    - apply last_None in Hx. subst l. apply Permutation_nil in Hll. by subst. }
  apply Hlast.
  - by rewrite Hp.
  - intros x y [Hx ?]%list_elem_of_filter [Hy ?]%list_elem_of_filter.
    apply Huniq; [done..|congruence].
Qed.

Lemma list_sort_Permutation_eq h (l l' : list ref) :
  l ≡ₚ l' →
  (∀ r1 r2, r1 ∈ l → r2 ∈ l → sort_order (h r1) = sort_order (h r2) → r1 = r2) →
  list_sort (λ r, sort_order (h r)) l = list_sort (λ r, sort_order (h r)) l'.
Proof.
  intros Hp Hdistinct.
  apply (StronglySorted_unique_strong (key_le (λ r, sort_order (h r)))).
  - intros x1 x2 Hx1 Hx2 H12 H21.
    apply list_sort_elem_of in Hx1, Hx2. rewrite <- Hp in Hx2.
    apply Hdistinct; [done..|]. unfold key_le in *. lia.
  - apply list_sort_sorted.
  - apply list_sort_sorted.
  - by rewrite !list_sort_perm.
Qed.

(** The tree does not depend on the order of the list.  When the items
    have unique ids and siblings have distinct [sort_order] values, any
    reordering of the input list gives the same roots and leaves every
    item with the same children; only [flat_items] follows the input. *)
Theorem from_list_order_independent h items items' top ph parent :
  items ≡ₚ items' →
  from_list_pre h items top →
  (∀ r1 r2, r1 ∈ items → r2 ∈ items → id (h r1) = id (h r2) → r1 = r2) →
  (∀ r1 r2, r1 ∈ items → r2 ∈ items →
            parent_item_id (h r1) = parent_item_id (h r2) →
            sort_order (h r1) = sort_order (h r2) → r1 = r2) →
  ∃ h1 h2 t1 t2,
    from_list items top ph parent h = (h1, inr t1) ∧
    from_list items' top ph parent h = (h2, inr t2) ∧
    tree_items t1 = tree_items t2 ∧
    flat_items t1 = (if decide (items = []) then None else Some items) ∧
    flat_items t2 = (if decide (items' = []) then None else Some items') ∧
    ∀ r, h1 r = h2 r.
Proof.
  intros Hp Hpre Hids Hsiblings.
  destruct (decide (items = [])) as [->|Hne].
  { apply Permutation_nil in Hp as ->. by eexists h, h, _, _. }
  assert (items' ≠ []) as Hne'.
  { intros ->. by apply Permutation_nil_r in Hp. }
  rewrite (decide_False (P := items' = [])) by done.
  pose proof (from_list_pre_Permutation _ _ _ _ Hp Hpre) as Hpre'.
  destruct (from_list_returns h items top ph parent Hne Hpre)
    as (h1 & Hrun1 & Hcol1 & Hch1 & Hfr1).
  destruct (from_list_returns h items' top ph parent Hne' Hpre')
    as (h2 & Hrun2 & Hcol2 & Hch2 & Hfr2).
  assert (∀ k, list_sort (λ r, sort_order (h r)) (group h items k)
             = list_sort (λ r, sort_order (h r)) (group h items' k)) as Hsort.
  { intros k. apply list_sort_Permutation_eq; [by apply group_Permutation|].
    intros r1 r2 [Hk1 Hr1]%list_elem_of_filter [Hk2 Hr2]%list_elem_of_filter.
    apply Hsiblings; [done..|congruence]. }
  assert (∀ k, group h items' k ≠ [] ↔ group h items k ≠ []) as Hgne.
  { intros k. pose proof (group_Permutation h _ _ k Hp) as Hg. split.
    - intros Hg' Hnil. rewrite Hnil in Hg. by apply Permutation_nil in Hg.
    - intros Hg' Hnil. rewrite Hnil in Hg. by apply Permutation_nil_r in Hg. }
  eexists h1, h2, _, _. split; [exact Hrun1|]. split; [exact Hrun2|].
  cbn [tree_items flat_items]. split_and!; [apply Hsort|done|done|].
  intros r.
  destruct (decide (Some (id (h r)) ≠ top ∧ group h items (Some (id (h r))) ≠ [] ∧
                    item_with_id h items (id (h r)) = Some r)) as [(Hkz & Hg & Hlk)|Hno].
  - destruct (Hch1 _ Hkz Hg) as (p & Hp1 & Hc1).
    assert (p = r) as -> by congruence.
    destruct (Hch2 (id (h r))) as (p' & Hp2 & Hc2); [done|by apply Hgne|].
    rewrite (item_with_id_Permutation _ _ _ _ Hp Hids) in Hp2.
    assert (p' = r) as -> by congruence.
    destruct (Hcol1 r) as (? & ? & ?), (Hcol2 r) as (? & ? & ?).
    apply ContentItem_eq; [congruence..|]. by rewrite Hc1, Hc2, Hsort.
  - rewrite Hfr1, Hfr2; [done| |].
    + intros kz Hkz Hg Hlk. apply Hgne in Hg.
      rewrite (item_with_id_Permutation _ _ _ _ Hp Hids) in Hlk.
      destruct (item_with_id_Some _ _ _ _ Hlk) as [_ <-]. by apply Hno.
    + intros kz Hkz Hg Hlk.
      destruct (item_with_id_Some _ _ _ _ Hlk) as [_ <-]. by apply Hno.
Qed.

Lemma h_family_distinct :
  (∀ r1 r2, r1 ∈ [0; 1; 2]%nat → r2 ∈ [0; 1; 2]%nat →
            id (h_family r1) = id (h_family r2) → r1 = r2) ∧
  (∀ r1 r2, r1 ∈ [0; 1; 2]%nat → r2 ∈ [0; 1; 2]%nat →
            parent_item_id (h_family r1) = parent_item_id (h_family r2) →
            sort_order (h_family r1) = sort_order (h_family r2) → r1 = r2).
Proof.
  split; intros r1 r2; rewrite !elem_of_cons, !elem_of_nil;
    intros [->|[->|[->|[]]]] [->|[->|[->|[]]]]; done.
Qed.

Lemma from_list_order_independent_witness :
  ∃ h1 h2 t1 t2,
    from_list [0; 1; 2]%nat None None None h_family = (h1, inr t1) ∧
    from_list [2; 0; 1]%nat None None None h_family = (h2, inr t2) ∧
    tree_items t1 = tree_items t2 ∧
    flat_items t1 = (if decide ([0; 1; 2]%nat = []) then None else Some [0; 1; 2]%nat) ∧
    flat_items t2 = (if decide ([2; 0; 1]%nat = []) then None else Some [2; 0; 1]%nat) ∧
    ∀ r, h1 r = h2 r.
Proof.
  apply (from_list_order_independent h_family [0; 1; 2]%nat [2; 0; 1]%nat None None None).
  - change [2; 0; 1]%nat with ([2%nat] ++ [0; 1]%nat).
    change [0; 1; 2]%nat with ([0; 1]%nat ++ [2%nat]). apply Permutation_app_comm.
  - apply h_family_pre.
  - apply h_family_distinct.
  - apply h_family_distinct.
Defined.

End tree_more.

(** ** More on media objects *)

Section media_more.
Import Media.

Lemma paths_add_snoc l p paths :
  paths_add l (p :: paths)
  = paths_add (if decide (p ∈ l) then l else l ++ [p]) paths.
Proof. done. Qed.

(** Adding paths only appends. *)
Lemma paths_add_prefix l paths : ∃ rest, paths_add l paths = l ++ rest.
Proof.
  revert l. induction paths as [|p paths IH]; intros l.
  - exists []. by rewrite app_nil_r.
  - rewrite paths_add_snoc. case_decide; [apply IH|].
    destruct (IH (l ++ [p])) as [rest ->]. exists (p :: rest).
    by rewrite <- app_assoc.
Qed.

Lemma filter_not_in_snoc (l paths : list string) p :
  p ∉ paths →
  filter (λ x, x ∉ l ++ [p]) paths = filter (λ x, x ∉ l) paths.
Proof.
  induction paths as [|q paths IH]; [done|].
  rewrite not_elem_of_cons. intros [Hne Hp].
  rewrite !filter_cons, IH by done.
  destruct (decide (q ∉ l ++ [p])) as [Hq|Hq], (decide (q ∉ l)) as [Hq'|Hq'];
    try done; exfalso.
  - apply Hq'. intros ?. apply Hq. apply elem_of_app. by left.
  - apply Hq. rewrite elem_of_app, list_elem_of_singleton. intros [?|?]; done.
Qed.

(** New paths go behind the old ones, in the order they are given. *)
Lemma paths_add_NoDup l paths :
  NoDup paths → paths_add l paths = l ++ filter (λ x, x ∉ l) paths.
Proof.
  intros Hnd. revert l. induction Hnd as [|p paths Hp Hnd IH]; intros l.
  - by rewrite app_nil_r.
  - rewrite paths_add_snoc, filter_cons. case_decide as Hin.
    + rewrite IH. by rewrite decide_False by (by intros ?).
    + rewrite IH, decide_True by done.
      rewrite filter_not_in_snoc by done. by rewrite <- app_assoc.
Qed.

Lemma paths_add_nil_NoDup paths : NoDup paths → paths_add [] paths = paths.
Proof.
  intros Hnd. rewrite paths_add_NoDup by done. cbn [app].
  induction paths as [|p paths IH]; [done|].
  apply NoDup_cons in Hnd as [_ Hnd].
  rewrite filter_cons, decide_True by apply not_elem_of_nil. by rewrite IH.
Qed.

Lemma css_add_empty_well_formed o : well_formed o → css_add ∅ (_css o) = _css o.
Proof.
  intros [_ Hcss]. apply map_eq. intros medium.
  rewrite css_add_lookup, lookup_empty. unfold css_add_medium.
  destruct (_css o !! medium) as [l|] eqn:Hl; [|done].
  destruct (Hcss _ _ Hl) as [Hne Hnd].
  rewrite decide_False by done. cbn [default]. by rewrite paths_add_nil_NoDup.
Qed.

Lemma css_add_empty_r css : css_add css ∅ = css.
Proof.
  apply map_eq. intros medium. rewrite css_add_lookup, lookup_empty. done.
Qed.

(** The short cut of [ImmutableMedia.__add__] is sound on an empty
    [self]: when [self] has no files and [other] is built as [Media]
    builds its objects, the result has the [_css] and the [_js] that
    [Media.__add__] would give, and unless [other] is the shared empty
    instance the two methods return the same new object. *)
Theorem ImmutableMedia_add_agrees h self other :
  heap_ok h →
  _css (cell h self) = ∅ → _js (cell h self) = [] →
  well_formed (cell h other) →
  let '(h1, r1) := __add__ self other h in
  let '(h2, r2) := Media_add self other h in
  _css (cell h1 r1) = _css (cell h2 r2) ∧
  _js (cell h1 r1) = _js (cell h2 r2) ∧
  (other ≠ empty_instance → (h1, r1) = (h2, r2)).
Proof.
  intros [Hn He] Hcss Hjs Hwf.
  assert (Media_add self other h
          = alloc (mkMedia PlainMedia (_css (cell h other)) (_js (cell h other))) h)
    as Hadd.
  { unfold Media_add, js_add. rewrite Hcss, Hjs, css_add_empty_r.
    rewrite (css_add_empty_well_formed _ Hwf).
    destruct Hwf as [Hnd _]. change (paths_add [] []) with (@nil string).
    by rewrite (paths_add_nil_NoDup _ Hnd). }
  rewrite Hadd. unfold __add__.
  destruct (decide (other = empty_instance)) as [->|Hne].
  - cbn [alloc cell]. unfold insert, fn_insert. rewrite decide_True by done.
    by rewrite He.
  - by cbn [alloc].
Qed.

Lemma h_sample_ok : heap_ok h_sample.
Proof. split; [cbn; lia|reflexivity]. Qed.

Lemma h_sample_plain_well_formed : well_formed (cell h_sample 1%nat).
Proof.
  split.
  - change (NoDup ["site.js"]). apply NoDup_singleton.
  - intros medium l. change (_css (cell h_sample 1%nat)) with
      ({[ "all" := ["site.css"] ]} : gmap string (list string)).
    intros [<- <-]%lookup_singleton_Some. split; [done|apply NoDup_singleton].
Qed.

Lemma ImmutableMedia_add_agrees_witness :
  let '(h1, r1) := __add__ 0%nat 1%nat h_sample in
  let '(h2, r2) := Media_add 0%nat 1%nat h_sample in
  _css (cell h1 r1) = _css (cell h2 r2) ∧
  _js (cell h1 r1) = _js (cell h2 r2) ∧
  (1%nat ≠ empty_instance → (h1, r1) = (h2, r2)).
Proof.
  apply (ImmutableMedia_add_agrees h_sample 0%nat 1%nat);
    [apply h_sample_ok|reflexivity|reflexivity|apply h_sample_plain_well_formed].
Defined.


(** *** The order of the files after [_insert_media] *)

(** The files of the inserted media come first.  When the output has
    media of its own and a plain [Media] is inserted, the scripts of the
    result are those of the inserted object followed by the earlier
    scripts it does not have, and for every medium the style sheets of
    the inserted object lead the list. *)
Theorem insert_media_puts_new_first h o m :
  cls (cell h m) = PlainMedia → media o ≠ empty_instance →
  NoDup (_js (cell h m)) → NoDup (_js (cell h (media o))) →
  let '(h', o') := _insert_media m o h in
  _js (cell h' (media o'))
  = _js (cell h m) ++ filter (λ x, x ∉ _js (cell h m)) (_js (cell h (media o))) ∧
  ∀ medium l, _css (cell h m) !! medium = Some l → l ≠ [] → NoDup l →
              ∃ rest, _css (cell h' (media o')) !! medium = Some (l ++ rest).
Proof.
  intros Hplain Hne Hm Ho. unfold _insert_media.
  rewrite decide_False by done. unfold py_add. rewrite Hplain.
  unfold Media_add, alloc, set_media. cbn [media cell].
  unfold insert at 1 2, fn_insert. rewrite !decide_True by done.
  cbn [_js _css]. split.
  - unfold js_add. rewrite (paths_add_nil_NoDup _ Hm). by apply paths_add_NoDup.
  - intros medium l Hl Hnil Hnd.
    rewrite !css_add_lookup, lookup_empty, Hl. unfold css_add_medium at 2.
    rewrite decide_False by done. change (default [] None) with (@nil string).
    rewrite (paths_add_nil_NoDup _ Hnd). unfold css_add_medium.
    destruct (_css (cell h (media o)) !! medium) as [paths|].
    + case_decide; [exists []; by rewrite app_nil_r|].
      change (default [] (Some l)) with l.
      destruct (paths_add_prefix l paths) as [rest ->]. eauto.
    + exists []. by rewrite app_nil_r.
Qed.

Lemma insert_media_puts_new_first_witness :
  let '(h', o') := _insert_media 1%nat (mkOutput "" 2%nat true DEFAULT_TIMEOUT) h_sample in
  _js (cell h' (media o'))
  = _js (cell h_sample 1%nat)
    ++ filter (λ x, x ∉ _js (cell h_sample 1%nat)) (_js (cell h_sample 2%nat)) ∧
  ∀ medium l, _css (cell h_sample 1%nat) !! medium = Some l → l ≠ [] → NoDup l →
              ∃ rest, _css (cell h' (media o')) !! medium = Some (l ++ rest).
Proof.
  apply (insert_media_puts_new_first h_sample (mkOutput "" 2%nat true DEFAULT_TIMEOUT) 1%nat).
  - reflexivity.
  - done.
  - change (NoDup ["site.js"]). apply NoDup_singleton.
  - change (NoDup ["gist.js"]). apply NoDup_singleton.
Defined.

Example insert_media_order_sample :
  let '(h', o') := _insert_media 1%nat (mkOutput "" 2%nat true DEFAULT_TIMEOUT) h_sample in
  _js (cell h' (media o')) = ["site.js"; "gist.js"].
Proof. reflexivity. Qed.


(** *** Aggregating *)

Lemma Media_add_files_from self other h :
  let '(h', r) := Media_add self other h in
  files_from (cell h' r) (cell h self) (cell h other).
Proof.
  unfold Media_add, alloc. cbn [cell].
  unfold insert, fn_insert. rewrite decide_True by done. split.
  - intros medium path Hf. unfold css_file in *. cbn [_css] in Hf.
    apply css_add_file in Hf as [Hf|Hf]; [left|by right].
    by apply (proj1 (css_add_empty_l _ _ _)) in Hf.
  - intros path Hf. unfold js_file, js_add in *. cbn [_js] in Hf.
    apply paths_add_elem_of in Hf as [Hf|Hf]; [left|by right].
    apply paths_add_elem_of in Hf as [Hf|Hf]; [by apply elem_of_nil in Hf|done].
Qed.

(** One step of aggregation, with what the next step needs. *)
Lemma insert_media_step h o m :
  heap_ok h → (m < next h)%nat → (media o < next h)%nat →
  cls (cell h m) = PlainMedia ∨ media o = empty_instance →
  let '(h', o') := _insert_media m o h in
  files_within (cell h m) (cell h' (media o')) ∧
  files_within (cell h (media o)) (cell h' (media o')) ∧
  files_from (cell h' (media o')) (cell h m) (cell h (media o)) ∧
  (∀ a, (a < next h)%nat → cell h' a = cell h a) ∧
  (next h ≤ media o')%nat ∧ (media o' < next h')%nat ∧
  cls (cell h' (media o')) = PlainMedia ∧
  heap_ok h' ∧
  html o' = html o ∧ cacheable o' = cacheable o ∧ cache_timeout o' = cache_timeout o.
Proof.
  intros [Hn He] Hm Ho Hcase. unfold _insert_media.
  destruct (decide (media o = empty_instance)) as [Hemp|Hnemp].
  - unfold Media_new. cbn [alloc].
    set (h1 := mkHeap (S (next h)) (<[next h := mkMedia PlainMedia ∅ []]> (cell h))).
    assert (∀ a, (a < next h)%nat → cell h1 a = cell h a) as H1.
    { intros a Ha. cbn [h1 cell]. unfold insert, fn_insert.
      rewrite decide_False; [done|lia]. }
    assert (cell h1 (next h) = mkMedia PlainMedia ∅ []) as H1n.
    { cbn [h1 cell]. unfold insert, fn_insert. by rewrite decide_True. }
    unfold py_add. rewrite H1n. cbn [cls].
    pose proof (Media_add_files (next h) m h1) as Hadd.
    pose proof (Media_add_files_from (next h) m h1) as Hfrom.
    destruct (Media_add (next h) m h1) as [h2 r].
    destruct Hadd as (-> & Hnext & Hcls & _ & Hother & Hframe).
    cbn [set_media media html cacheable cache_timeout]. rewrite (H1 m Hm) in Hother, Hfrom.
    cbn [h1 next] in *.
    split_and!; [done| | | | | |done| |done|done|done].
    + rewrite Hemp, He. split.
      * intros medium path (l & Hl & _). cbn [_css] in Hl.
        by rewrite lookup_empty in Hl.
      * intros path Hin. unfold js_file in Hin. cbn [_js] in Hin.
        by apply elem_of_nil in Hin.
    + rewrite H1n in Hfrom. destruct Hfrom as [Hc Hj]. split.
      * intros medium path Hf. destruct (Hc _ _ Hf) as [(l & Hl & _)|?]; [|by left].
        cbn [_css] in Hl. by rewrite lookup_empty in Hl.
      * intros path Hf. destruct (Hj _ Hf) as [Hin|?]; [|by left].
        unfold js_file in Hin. cbn [_js] in Hin. by apply elem_of_nil in Hin.
    + intros a Ha. rewrite Hframe by lia. by apply H1.
    + lia.
    + lia.
    + split; [lia|]. rewrite Hframe by (unfold empty_instance; lia).
      rewrite H1 by done. exact He.
  - destruct Hcase as [Hplain|?]; [|done].
    unfold py_add. rewrite Hplain.
    pose proof (Media_add_files m (media o) h) as Hadd.
    pose proof (Media_add_files_from m (media o) h) as Hfrom.
    destruct (Media_add m (media o) h) as [h1 r].
    destruct Hadd as (-> & Hnext & Hcls & Hself & Hother & Hframe).
    cbn [set_media media html cacheable cache_timeout].
    split_and!; [done|done|done| |lia|lia|done| |done|done|done].
    + intros a Ha. apply Hframe. lia.
    + split; [lia|]. rewrite Hframe by (unfold empty_instance; lia). exact He.
Qed.

(** A new output and its first media.  An output constructed without
    media holds the shared empty instance.  Whatever media object is
    inserted into it first, plain or immutable, the output then holds a
    newly made plain [Media] with exactly the files of that object, and
    no object that existed is changed. *)
Theorem fresh_output_insert_media (escape : string → string)
    h html_in cacheable_in timeout_in m :
  heap_ok h → (m < next h)%nat →
  let o := __init__ escape html_in None cacheable_in timeout_in in
  media o = empty_instance ∧
  let '(h', o') := _insert_media m o h in
  files_within (cell h m) (cell h' (media o')) ∧
  files_within (cell h' (media o')) (cell h m) ∧
  cls (cell h' (media o')) = PlainMedia ∧
  (next h ≤ media o')%nat ∧
  (∀ a, (a < next h)%nat → cell h' a = cell h a) ∧
  html o' = conditional_escape escape html_in.
Proof.
  intros Hok Hm o. split; [done|].
  pose proof (insert_media_step h o m Hok Hm) as Hstep.
  destruct (_insert_media m o h) as [h' o'].
  destruct Hstep as (Hin & _ & Hfrom & Hframe & Hfresh & _ & Hcls & _ & Hhtml & _);
    [destruct Hok; cbn; unfold empty_instance; lia|by right|].
  split_and!; [done| |done..].
  destruct Hok as [_ He]. destruct Hfrom as [Hc Hj].
  change (media o) with empty_instance in Hc, Hj. rewrite He in Hc, Hj. split.
  - intros medium path Hf. destruct (Hc _ _ Hf) as [?|(l & Hl & _)]; [done|].
    cbn [_css] in Hl. by rewrite lookup_empty in Hl.
  - intros path Hf. destruct (Hj _ Hf) as [?|Hx]; [done|].
    unfold js_file in Hx. cbn [_js] in Hx. by apply elem_of_nil in Hx.
Qed.

Lemma fresh_output_insert_media_witness :
  let o := __init__ (λ s, s) (SafeText "<p>gist</p>") None true (Seconds 60) in
  media o = empty_instance ∧
  let '(h', o') := _insert_media 2%nat o h_sample in
  files_within (cell h_sample 2%nat) (cell h' (media o')) ∧
  files_within (cell h' (media o')) (cell h_sample 2%nat) ∧
  cls (cell h' (media o')) = PlainMedia ∧
  (next h_sample ≤ media o')%nat ∧
  (∀ a, (a < next h_sample)%nat → cell h' a = cell h_sample a) ∧
  html o' = conditional_escape (λ s, s) (SafeText "<p>gist</p>").
Proof.
  apply (fresh_output_insert_media (λ s, s) h_sample (SafeText "<p>gist</p>")
           true (Seconds 60) 2%nat); [apply h_sample_ok|cbn; lia].
Defined.


Lemma files_within_trans a b c :
  files_within a b → files_within b c → files_within a c.
Proof. intros [? ?] [? ?]. split; eauto. Qed.

Lemma insert_all_cons m ms o h :
  insert_all (m :: ms) o h
  = insert_all ms (_insert_media m o h).2 (_insert_media m o h).1.
Proof. unfold insert_all. cbn [foldl]. by destruct (_insert_media m o h). Qed.

(** Plain [Media] objects inserted one after another are all kept:
    the output ends with every file of each of them and every file it
    held before, and no object that existed is changed. *)
Theorem insert_all_keeps_files ms h o :
  heap_ok h → (media o < next h)%nat →
  Forall (λ m, (m < next h)%nat ∧ cls (cell h m) = PlainMedia) ms →
  let '(h', o') := insert_all ms o h in
  Forall (λ m, files_within (cell h m) (cell h' (media o'))) ms ∧
  files_within (cell h (media o)) (cell h' (media o')) ∧
  (∀ a, (a < next h)%nat → cell h' a = cell h a).
Proof.
  revert h o. induction ms as [|m ms IH]; intros h o Hok Ho Hms.
  { cbn. split_and!; [done| |done]. by split. }
  apply Forall_cons in Hms as [[Hm Hplain] Hms].
  rewrite insert_all_cons.
  pose proof (insert_media_step h o m Hok Hm Ho (or_introl Hplain)) as Hstep.
  destruct (_insert_media m o h) as [h1 o1]. cbn [fst snd].
  destruct Hstep as (Hin & Hold & _ & Hframe & Hfresh & Ho1 & _ & Hok1 & _).
  assert (next h ≤ next h1)%nat as Hgrow by lia.
  specialize (IH h1 o1 Hok1 Ho1).
  destruct (insert_all ms o1 h1) as [h' o'].
  destruct IH as (Hall & Hrest & Hframe').
  { eapply Forall_impl; [exact Hms|]. intros a [Ha Hcls].
    split; [lia|]. by rewrite Hframe. }
  split_and!.
  - apply Forall_cons. split; [by eapply files_within_trans|].
    rewrite Forall_forall in Hall, Hms |- *. intros a Ha.
    destruct (Hms a Ha) as [Hlt _]. rewrite <- (Hframe a Hlt). by apply Hall.
  - by eapply files_within_trans.
  - intros a Ha. rewrite Hframe' by lia. by apply Hframe.
Qed.

Lemma insert_all_keeps_files_witness :
  let '(h', o') := insert_all [1; 1]%nat o_page h_sample in
  Forall (λ m, files_within (cell h_sample m) (cell h' (media o'))) [1; 1]%nat ∧
  files_within (cell h_sample (media o_page)) (cell h' (media o')) ∧
  (∀ a, (a < next h_sample)%nat → cell h' a = cell h_sample a).
Proof.
  apply (insert_all_keeps_files [1; 1]%nat h_sample o_page);
    [apply h_sample_ok|cbn; lia|].
  repeat (apply Forall_cons_2; [split; [cbn; lia|reflexivity]|]).
  apply Forall_nil_2.
Defined.

(** No output carries a falsy cache timeout.  The constructor turns [0]
    and [None] into [DEFAULT_TIMEOUT] and keeps any other value;
    restoring from the pickled state sets [DEFAULT_TIMEOUT]; and
    [_insert_media] leaves the timeout, the [cacheable] flag and the
    html as they are. *)
Theorem cache_timeout_never_falsy (escape : string → string) :
  let truthy_timeout o :=
    cache_timeout o ≠ Seconds 0 ∧ cache_timeout o ≠ NoTimeout in
  (∀ html_in media_in cacheable_in t,
     let o := __init__ escape html_in media_in cacheable_in t in
     truthy_timeout o ∧
     (cache_timeout o = DEFAULT_TIMEOUT ↔
        t = DEFAULT_TIMEOUT ∨ t = Seconds 0 ∨ t = NoTimeout) ∧
     (cache_timeout o ≠ DEFAULT_TIMEOUT → cache_timeout o = t)) ∧
  (∀ st h, cache_timeout (__setstate__ st h).2 = DEFAULT_TIMEOUT ∧
           truthy_timeout (__setstate__ st h).2) ∧
  (∀ m o h, cache_timeout (_insert_media m o h).2 = cache_timeout o ∧
            cacheable (_insert_media m o h).2 = cacheable o ∧
            html (_insert_media m o h).2 = html o ∧
            (truthy_timeout o → truthy_timeout (_insert_media m o h).2)).
Proof.
  intros truthy_timeout. subst truthy_timeout. cbn beta. split_and!.
  - intros html_in media_in cacheable_in t. cbn [__init__ cache_timeout].
    destruct t as [|n|]; cbn [timeout_or_default].
    + split_and!; [done|done| |done]. split; [by left|done].
    + case_decide as Hn.
      * subst n. split_and!; [done|done| |done]. split; [by right; left|done].
      * split_and!; [congruence|done| |done].
        split; [done|]. intros [?|[?|?]]; congruence.
    + split_and!; [done|done| |done]. split; [by right; right|done].
  - intros [[html_str css] js] h. unfold __setstate__.
    case_decide; by cbn.
  - intros m o h. unfold _insert_media.
    case_decide.
    + destruct (Media_new h) as [h1 e]. by destruct (py_add e m h1).
    + by destruct (py_add m (media o) h).
Qed.


(** *** The media of the admin classes *)

(** Form fields first, plugin afterwards.  When the base class gives a
    plain [Media] and the class has a plugin, the scripts of the result
    are those of the base media followed by the plugin's scripts that
    the base media does not have, and the style sheets of the base media
    lead the list of every medium.  Without a plugin the base media is
    returned as it is. *)
Theorem admin_options_media_order h super_media plugin_media :
  cls (cell h super_media) = PlainMedia →
  NoDup (_js (cell h super_media)) →
  (admin_options_media super_media None h = (h, super_media)) ∧
  ∀ pm, plugin_media = Some pm → NoDup (_js (cell h pm)) →
    let '(h', r) := admin_options_media super_media plugin_media h in
    _js (cell h' r)
    = _js (cell h super_media)
      ++ filter (λ x, x ∉ _js (cell h super_media)) (_js (cell h pm)) ∧
    (∀ medium l, _css (cell h super_media) !! medium = Some l → l ≠ [] → NoDup l →
                 ∃ rest, _css (cell h' r) !! medium = Some (l ++ rest)) ∧
    (∀ a, a ≠ next h → cell h' a = cell h a).
Proof.
  intros Hplain Hnd. split; [done|]. intros pm -> Hpm.
  unfold admin_options_media, py_add. rewrite Hplain.
  unfold Media_add, alloc. cbn [cell].
  unfold insert at 1 2, fn_insert. rewrite !decide_True by done.
  cbn [_js _css]. split_and!.
  - unfold js_add. rewrite (paths_add_nil_NoDup _ Hnd). by apply paths_add_NoDup.
  - intros medium l Hl Hnil Hl'.
    rewrite !css_add_lookup, lookup_empty, Hl. unfold css_add_medium at 2.
    rewrite decide_False by done. change (default [] None) with (@nil string).
    rewrite (paths_add_nil_NoDup _ Hl'). unfold css_add_medium.
    destruct (_css (cell h pm) !! medium) as [paths|].
    + case_decide; [exists []; by rewrite app_nil_r|].
      change (default [] (Some l)) with l.
      destruct (paths_add_prefix l paths) as [rest ->]. eauto.
    + exists []. by rewrite app_nil_r.
  - intros a Ha. unfold insert, fn_insert. by rewrite decide_False.
Qed.

Lemma admin_options_media_order_witness :
  (admin_options_media 1%nat None h_sample = (h_sample, 1%nat)) ∧
  ∀ pm, Some 2%nat = Some pm → NoDup (_js (cell h_sample pm)) →
    let '(h', r) := admin_options_media 1%nat (Some 2%nat) h_sample in
    _js (cell h' r)
    = _js (cell h_sample 1%nat)
      ++ filter (λ x, x ∉ _js (cell h_sample 1%nat)) (_js (cell h_sample pm)) ∧
    (∀ medium l, _css (cell h_sample 1%nat) !! medium = Some l → l ≠ [] → NoDup l →
                 ∃ rest, _css (cell h' r) !! medium = Some (l ++ rest)) ∧
    (∀ a, a ≠ next h_sample → cell h' a = cell h_sample a).
Proof.
  apply (admin_options_media_order h_sample 1%nat (Some 2%nat)); [reflexivity|].
  change (NoDup ["site.js"]). apply NoDup_singleton.
Defined.

Section parent_inline_media_facts.
Context (add_media : MediaObj → MediaObj → MediaObj).

Lemma parent_inline_media_filter base children :
  parent_inline_media add_media base children
  = foldl add_media (add_media (mkMedia PlainMedia ∅ []) base)
      (filter (λ c, _css c ≠ _css base ∧ _js c ≠ _js base) children).
Proof.
  unfold parent_inline_media.
  generalize (add_media (mkMedia PlainMedia ∅ []) base). intros acc.
  revert acc. induction children as [|c children IH]; intros acc; [done|].
  cbn [foldl]. rewrite filter_cons. case_decide; [by cbn [foldl]|done].
Qed.

(** Which child media reach the parent inline.  A child inline's media
    is added only when both its [_css] and its [_js] differ from those
    of the base media.  A child whose [_css] equals the base media's,
    as when neither has a style sheet, adds nothing, whatever scripts it
    has; nor does one whose [_js] equals the base media's. *)
Theorem parent_inline_media_skips base before child after :
  _css child = _css base ∨ _js child = _js base →
  parent_inline_media add_media base (before ++ child :: after)
  = parent_inline_media add_media base (before ++ after).
Proof.
  intros Hsame. rewrite !parent_inline_media_filter.
  rewrite !filter_app, filter_cons.
  rewrite decide_False; [done|]. intros [? ?]. by destruct Hsame.
Qed.

End parent_inline_media_facts.

Lemma parent_inline_media_skips_witness :
  parent_inline_media (λ dest m, mkMedia (cls dest) (css_add (_css dest) (_css m))
                                         (js_add (_js dest) (_js m)))
    (mkMedia PlainMedia ∅ ["admin.js"])
    ([] ++ mkMedia PlainMedia ∅ ["gist.js"] :: [])
  = parent_inline_media (λ dest m, mkMedia (cls dest) (css_add (_css dest) (_css m))
                                           (js_add (_js dest) (_js m)))
      (mkMedia PlainMedia ∅ ["admin.js"]) ([] ++ []).
Proof.
  apply (parent_inline_media_skips _ (mkMedia PlainMedia ∅ ["admin.js"]) []
           (mkMedia PlainMedia ∅ ["gist.js"]) []).
  by left.
Defined.

(** *** What [Media.__add__] builds is well formed *)

Lemma paths_add_keeps_NoDup l paths : NoDup l → NoDup (paths_add l paths).
Proof.
  revert l. induction paths as [|p paths IH]; intros l Hl; [done|].
  rewrite paths_add_snoc. apply IH. case_decide; [done|].
  apply NoDup_app. split_and!; [done| |apply NoDup_singleton].
  intros x Hx ->%list_elem_of_singleton. done.
Qed.

Lemma paths_add_not_nil l paths : l ≠ [] ∨ paths ≠ [] → paths_add l paths ≠ [].
Proof.
  intros Hne Hnil. destruct (paths_add_prefix l paths) as [rest Hrest].
  rewrite Hnil in Hrest. symmetry in Hrest. apply app_eq_nil in Hrest as [-> ->].
  destruct Hne as [?|Hp]; [done|].
  destruct paths as [|p paths]; [done|].
  rewrite paths_add_snoc in Hnil. rewrite decide_False in Hnil by apply not_elem_of_nil.
  destruct (paths_add_prefix ([] ++ [p]) paths) as [rest' Hr'].
  rewrite Hnil in Hr'. done.
Qed.

Lemma css_add_medium_well_formed old data l :
  (∀ l0, old = Some l0 → l0 ≠ [] ∧ NoDup l0) →
  css_add_medium old data = Some l → l ≠ [] ∧ NoDup l.
Proof.
  intros Hold. unfold css_add_medium.
  destruct data as [paths|]; [|by apply Hold].
  case_decide as Hp; [by apply Hold|]. intros [= <-]. split.
  - apply paths_add_not_nil. by right.
  - apply paths_add_keeps_NoDup. destruct old as [l0|]; [|apply NoDup_nil_2].
    by apply (Hold l0).
Qed.

Lemma css_add_well_formed css data :
  (∀ medium l, css !! medium = Some l → l ≠ [] ∧ NoDup l) →
  ∀ medium l, css_add css data !! medium = Some l → l ≠ [] ∧ NoDup l.
Proof.
  intros Hcss medium l. rewrite css_add_lookup.
  apply css_add_medium_well_formed. intros l0. apply Hcss.
Qed.

Lemma Media_add_well_formed self other h :
  well_formed (cell (Media_add self other h).1 (Media_add self other h).2).
Proof.
  unfold Media_add. cbn [alloc fst snd cell].
  unfold insert, fn_insert. rewrite decide_True by done. split; cbn [_js _css].
  - unfold js_add. apply paths_add_keeps_NoDup, paths_add_keeps_NoDup, NoDup_nil_2.
  - apply css_add_well_formed, css_add_well_formed. intros medium l.
    by rewrite lookup_empty.
Qed.

(** Where [_insert_media] aggregates (the media handed in is a plain
    [Media], or the output still holds the shared empty instance), the
    media it leaves in the output lists no path twice and has no medium
    without a path, whatever the two media objects held. *)
Theorem insert_media_well_formed h o m :
  cls (cell h m) = PlainMedia ∨ media o = empty_instance →
  well_formed (cell (_insert_media m o h).1 (media (_insert_media m o h).2)).
Proof.
  intros Hcase. unfold _insert_media. case_decide as He.
  - unfold Media_new. cbn [alloc].
    set (h1 := mkHeap (S (next h)) (<[next h:=mkMedia PlainMedia ∅ []]> (cell h))).
    assert (cls (cell h1 (next h)) = PlainMedia) as Hcls.
    { subst h1. cbn [cell]. unfold insert, fn_insert. by rewrite decide_True. }
    unfold py_add. rewrite Hcls.
    pose proof (Media_add_well_formed (next h) m h1) as Hwf.
    destruct (Media_add (next h) m h1) as [h2 r]. exact Hwf.
  - destruct Hcase as [Hplain|?]; [|done].
    unfold py_add. rewrite Hplain.
    pose proof (Media_add_well_formed m (media o) h) as Hwf.
    destruct (Media_add m (media o) h) as [h1 r]. exact Hwf.
Qed.

Lemma insert_media_well_formed_witness :
  well_formed (cell (_insert_media 1%nat o_restored h_restored).1
                    (media (_insert_media 1%nat o_restored h_restored).2)).
Proof.
  apply (insert_media_well_formed h_restored o_restored 1%nat).
  left. reflexivity.
Defined.

(** *** Pickling a restored output *)

(** [__getstate__] after [__setstate__] gives back the state that was
    restored, for every state: [__setstate__] stores the dict and the
    list as they are, not through [add_css] and [add_js]. *)
Theorem setstate_getstate_roundtrip h st :
  heap_ok h →
  __getstate__ (__setstate__ st h).2 (__setstate__ st h).1 = st.
Proof.
  intros [Hn He]. destruct st as [[html_str css] js].
  unfold __setstate__, __getstate__. case_decide as Hempty.
  - destruct Hempty as [-> ->]. cbn [fst snd html media]. by rewrite He.
  - cbn [ImmutableMedia_new alloc write next cell fst snd html media].
    unfold insert, fn_insert. rewrite !decide_True by done. done.
Qed.

Lemma setstate_getstate_roundtrip_witness :
  __getstate__ (__setstate__ cached_state h_plain).2
               (__setstate__ cached_state h_plain).1 = cached_state.
Proof.
  apply (setstate_getstate_roundtrip h_plain cached_state).
  split; [cbn; lia|reflexivity].
Defined.

End media_more.

(** ** More on the formset *)

Section formset_more.
Import Formset.

(** What one run of [_set_placeholder_id] does to the formset: it may
    add one entry to the cache and touches nothing else. *)
Lemma _set_placeholder_id_formset form fs fs' form' :
  cache_ok fs →
  _set_placeholder_id form fs = inr (fs', form') →
  cache_ok fs' ∧
  parent_placeholders fs' = parent_placeholders fs ∧
  _deleted_placeholders fs' = _deleted_placeholders fs ∧
  current_language fs' = current_language fs ∧
  _placeholders_by_slot fs ⊆ _placeholders_by_slot fs'.
Proof.
  intros Hok. unfold _set_placeholder_id.
  case_decide; [by intros [= <- <-]|].
  case_decide.
  - destruct (desired_placeholder _ fs) as [e|[fs1 p]] eqn:Hd; [done|].
    intros [= <- <-].
    destruct (desired_placeholder_inr _ _ _ _ Hok Hd) as (_ & _ & ? & ? & ? & ?).
    split_and!; [done..|].
    unfold desired_placeholder in Hd.
    destruct (_placeholders_by_slot fs !! _) as [q|] eqn:Hc.
    + by injection Hd as <- <-.
    + destruct (get_by_slot _ _); [done|]. injection Hd as <- <-.
      cbn [_placeholders_by_slot]. by apply insert_subseteq.
  - case_decide; by intros [= <- <-].
Qed.

Lemma save_step_formset a fs db fs' form' db' :
  cache_ok fs →
  match a with
  | SaveNew form commit => save_new form commit fs db
  | SaveExisting form commit => save_existing form commit fs db
  end = inr (fs', form', db') →
  (cache_ok fs' ∧
   parent_placeholders fs' = parent_placeholders fs ∧
   _deleted_placeholders fs' = _deleted_placeholders fs ∧
   current_language fs' = current_language fs ∧
   _placeholders_by_slot fs ⊆ _placeholders_by_slot fs') ∧
  db' = db ++ (if commits a then [instance form'] else []).
Proof.
  intros Hok. destruct a as [form commit|form commit]; cbn [commits].
  - unfold save_new.
    destruct (_set_placeholder_id form fs) as [e|[fs1 form1]] eqn:Hset; [done|].
    intros [= <- <- <-]. split; [by eapply _set_placeholder_id_formset|].
    destruct commit; [done|by rewrite app_nil_r].
  - unfold save_existing. destruct commit.
    + destruct (_set_placeholder_id form fs) as [e|[fs1 form1]] eqn:Hset; [done|].
      intros [= <- <- <-]. split; [by eapply _set_placeholder_id_formset|done].
    + intros [= <- <- <-]. by rewrite app_nil_r.
Qed.

(** Saving the forms of a formset keeps it sound.  If the calls for a
    list of forms all go through, the cache still holds only
    placeholders of the parent under their own slot, entries that were
    cached stay as they were, the deleted placeholders and the language
    are untouched, and exactly one row was written for each call with
    [commit] set, after the rows written before: [instance.save()] in
    [save_new], [form.save(commit=True)] in [save_existing], which
    writes a row that exists already.  A call without [commit] writes
    nothing. *)
Theorem save_all_keeps_formset acts fs db fs' db' :
  cache_ok fs →
  save_all acts fs db = inr (fs', db') →
  cache_ok fs' ∧
  parent_placeholders fs' = parent_placeholders fs ∧
  _deleted_placeholders fs' = _deleted_placeholders fs ∧
  current_language fs' = current_language fs ∧
  _placeholders_by_slot fs ⊆ _placeholders_by_slot fs' ∧
  ∃ rows, db' = db ++ rows ∧
          length rows = length (filter (λ a, commits a = true) acts).
Proof.
  revert fs db. induction acts as [|a acts IH]; intros fs db Hok Hrun.
  { injection Hrun as <- <-. split_and!; [done..|]. exists []. by rewrite app_nil_r. }
  cbn [save_all] in Hrun.
  destruct (match a with SaveNew _ _ => _ | SaveExisting _ _ => _ end)
    as [e|[[fs1 form1] db1]] eqn:Hstep; [done|].
  destruct (save_step_formset a fs db fs1 form1 db1 Hok Hstep)
    as ((Hok1 & Hp & Hd & Hl & Hsub) & Hdb).
  destruct (IH fs1 db1 Hok1 Hrun) as (Hok' & Hp' & Hd' & Hl' & Hsub' & rows & Hdb' & Hlen).
  split_and!; [done|congruence..| |].
  - by etrans.
  - exists ((if commits a then [instance form1] else []) ++ rows).
    split; [by rewrite Hdb', Hdb, app_assoc|].
    rewrite filter_cons. destruct (commits a); cbn.
    + by rewrite Hlen.
    + done.
Qed.

Lemma save_all_keeps_formset_witness :
  cache_ok (mkFormSet [p_main; p_side] "en" [2] {[ "main" := p_main ]}) ∧
  parent_placeholders (mkFormSet [p_main; p_side] "en" [2] {[ "main" := p_main ]})
  = parent_placeholders fs_page ∧
  _deleted_placeholders (mkFormSet [p_main; p_side] "en" [2] {[ "main" := p_main ]})
  = _deleted_placeholders fs_page ∧
  current_language (mkFormSet [p_main; p_side] "en" [2] {[ "main" := p_main ]})
  = current_language fs_page ∧
  _placeholders_by_slot fs_page
  ⊆ _placeholders_by_slot (mkFormSet [p_main; p_side] "en" [2] {[ "main" := p_main ]}) ∧
  ∃ rows, [mkRow (Some p_main) (Some 1) "en"] = [] ++ rows ∧
          length rows
          = length (filter (λ a, commits a = true)
                      [SaveNew form_new true; SaveExisting form_new false]).
Proof.
  apply (save_all_keeps_formset [SaveNew form_new true; SaveExisting form_new false]
           fs_page []); [apply fs_page_cache_ok|reflexivity].
Defined.

(** One query per slot.  Once a form that needed the placeholder of its
    slot was saved, any later form that needs the placeholder of the
    same slot goes through without a query, gets the very same
    placeholder, and leaves the formset as it is. *)
Theorem same_slot_same_placeholder fs db form1 commit1 fs1 form1' db1 form2 commit2 :
  cleaned_placeholder_slot form1 ≠ "" →
  needs_fetch form1 → needs_fetch form2 →
  cleaned_placeholder_slot form2 = cleaned_placeholder_slot form1 →
  save_new form1 commit1 fs db = inr (fs1, form1', db1) →
  ∃ form2' db2,
    save_new form2 commit2 fs1 db1 = inr (fs1, form2', db2) ∧
    cleaned_placeholder form2' = cleaned_placeholder form1' ∧
    placeholder (instance form2') = placeholder (instance form1') ∧
    is_Some (cleaned_placeholder form2').
Proof.
  intros Hslot Hn1 Hn2 Hsame. unfold save_new, _set_placeholder_id.
  rewrite Hsame. rewrite decide_False by done.
  rewrite !decide_True by done.
  destruct (desired_placeholder _ fs) as [e|[fs0 p]] eqn:Hd; [done|].
  intros [= <- <- <-].
  assert (_placeholders_by_slot fs0 !! cleaned_placeholder_slot form1 = Some p) as Hc.
  { unfold desired_placeholder in Hd.
    destruct (_placeholders_by_slot fs !! _) as [q|] eqn:Hq.
    - by injection Hd as <- <-.
    - destruct (get_by_slot _ _); [done|]. injection Hd as <- <-.
      cbn [_placeholders_by_slot]. by rewrite lookup_insert_eq. }
  unfold desired_placeholder. rewrite Hc.
  rewrite (decide_False (P := cleaned_placeholder_slot form1 = "")) by done.
  rewrite (decide_True (P := needs_fetch form2)) by done.
  eexists _, _. split; [reflexivity|]. cbn. by split_and!.
Qed.

Lemma same_slot_same_placeholder_witness :
  ∃ form2' db2,
    save_new (mkForm "main" (Some p_side) (mkRow (Some p_side) (Some 2) "")) false
      (mkFormSet [p_main; p_side] "en" [2] {[ "main" := p_main ]})
      [mkRow (Some p_main) (Some 1) "en"]
    = inr (mkFormSet [p_main; p_side] "en" [2] {[ "main" := p_main ]}, form2', db2) ∧
    cleaned_placeholder form2'
    = cleaned_placeholder (mkForm "main" (Some p_main) (mkRow (Some p_main) (Some 1) "en")) ∧
    placeholder (instance form2')
    = placeholder (instance (mkForm "main" (Some p_main) (mkRow (Some p_main) (Some 1) "en"))) ∧
    is_Some (cleaned_placeholder form2').
Proof.
  apply (same_slot_same_placeholder fs_page [] form_new true
           (mkFormSet [p_main; p_side] "en" [2] {[ "main" := p_main ]})
           (mkForm "main" (Some p_main) (mkRow (Some p_main) (Some 1) "en"))
           [mkRow (Some p_main) (Some 1) "en"]
           (mkForm "main" (Some p_side) (mkRow (Some p_side) (Some 2) "")) false);
    [done|done| |done|reflexivity].
  cbn. done.
Defined.

End formset_more.

(** ** More on the order of the form fields *)

Section formclass_more.
Import FormClass.
Context {Field : Type}.
Implicit Types d : list (string * Field).

Lemma formclass_od_get_None k d : od_get k d = None ↔ k ∉ d.*1.
Proof.
  induction d as [|[k0 v0] d IH]; simpl.
  - split; [intros _; apply not_elem_of_nil|done].
  - case_decide; simplify_eq.
    + split; [done|]. intros H. exfalso. apply H. left.
    + rewrite IH, not_elem_of_cons. split; [by split|by intros [_ ?]].
Qed.

Lemma pairs_in_order_keys o d l : pairs_in_order o d = inr l → l.*1 = o.
Proof.
  revert l. induction o as [|k o IH]; simpl; intros l.
  - by intros [= <-].
  - destruct (od_get k d); [|done].
    destruct (pairs_in_order o d) as [e|l0]; [done|].
    intros [= <-]. rewrite fmap_cons. cbn [fst]. by rewrite (IH l0).
Qed.

Lemma pairs_in_order_elem_of o d l :
  pairs_in_order o d = inr l → Forall (λ kv, kv ∈ d) l.
Proof.
  revert l. induction o as [|k o IH]; simpl; intros l.
  - intros [= <-]. constructor.
  - destruct (od_get k d) as [v|] eqn:Hv; [|done].
    destruct (pairs_in_order o d) as [e|l0]; [done|].
    intros [= <-]. constructor; [by apply formclass_od_get_Some|by apply IH].
Qed.

(** The lookup fails at the first name that is missing. *)
Lemma pairs_in_order_inl o d k :
  pairs_in_order o d = inl (KeyError k) ↔
  ∃ before after, o = before ++ k :: after ∧
                  Forall (λ x, x ∈ d.*1) before ∧ k ∉ d.*1.
Proof.
  revert k. induction o as [|x o IH]; intros k; simpl.
  - split; [done|]. intros (before & after & Heq & _). by destruct before.
  - destruct (od_get x d) as [v|] eqn:Hx.
    + assert (x ∈ d.*1) as Hin.
      { apply formclass_od_get_Some in Hx. apply list_elem_of_fmap. by exists (x, v). }
      destruct (pairs_in_order o d) as [[k']|l] eqn:Ho.
      * split.
        -- intros [= ->]. destruct (proj1 (IH k) eq_refl) as (b & a & -> & Hb & Hk).
           exists (x :: b), a. split_and!; [done|by constructor|done].
        -- intros (b & a & Heq & Hb & Hk). destruct b as [|y b].
           ++ injection Heq as -> ->. done.
           ++ injection Heq as -> ->. apply Forall_cons in Hb as [_ Hb].
              apply IH. by exists b, a.
      * split; [done|]. intros (b & a & Heq & Hb & Hk). destruct b as [|y b].
        -- injection Heq as -> ->. done.
        -- injection Heq as -> ->. apply Forall_cons in Hb as [_ Hb].
           assert (inr l = inl (KeyError k)) as Hbad; [|done].
           apply IH. by exists b, a.
    + apply formclass_od_get_None in Hx. split.
      * intros [= <-]. exists [], o. by split_and!.
      * intros (b & a & Heq & Hb & Hk). destruct b as [|y b].
        -- by injection Heq as -> ->.
        -- injection Heq as -> ->. by apply Forall_cons in Hb as [? _].
Qed.

(** A field of [ContentItemForm] that the generated form lacks makes
    [get_form_class] raise [KeyError]: the key is the first such field,
    in [ContentItemForm]'s order.  Nothing else makes it raise. *)
Theorem get_form_class_KeyError (cif form_fields : list (string * Field)) k :
  get_form_class cif form_fields = inl (KeyError k) ↔
  ∃ before after, keys cif = before ++ k :: after ∧
                  Forall (λ x, x ∈ keys form_fields) before ∧
                  k ∉ keys form_fields.
Proof.
  unfold get_form_class, keys.
  set (first_fields := cif.*1).
  set (others := filter (λ f, f ∉ first_fields) form_fields.*1).
  assert (Forall (λ x, x ∈ form_fields.*1) others) as Hothers.
  { apply Forall_forall. intros x Hx. unfold others in Hx.
    by apply list_elem_of_filter in Hx as [_ ?]. }
  destruct (pairs_in_order (first_fields ++ others) form_fields) as [[k']|l] eqn:Hrun.
  - apply pairs_in_order_inl in Hrun as (b & a & Heq & Hb & Hk).
    assert (∃ a', first_fields = b ++ k' :: a') as [a' Hfirst].
    { assert (k' ∉ others) as Hnot.
      { intros Hin. rewrite Forall_forall in Hothers. by apply Hk, Hothers. }
      apply app_eq_inv in Heq as [(l & Hf & Ha)|(l & Hb' & Ho)].
      - destruct l as [|x l].
        + exfalso. apply Hnot. cbn in Ha. rewrite <- Ha. left.
        + injection Ha as <- _. by exists l.
      - exfalso. apply Hnot. rewrite Ho. apply elem_of_app. right. left. }
    split.
    + intros [= ->]. by exists b, a'.
    + intros (b2 & a2 & Heq2 & Hb2 & Hk2). f_equal. f_equal.
      assert (pairs_in_order (first_fields ++ others) form_fields = inl (KeyError k))
        as Hrun2.
      { apply pairs_in_order_inl. exists b2, (a2 ++ others).
        split_and!; [|done..]. rewrite Heq2.
        by rewrite <- app_assoc. }
      assert (pairs_in_order (first_fields ++ others) form_fields = inl (KeyError k'))
        as Hrun1.
      { apply pairs_in_order_inl. by exists b, a. }
      congruence.
  - split; [done|]. intros (b2 & a2 & Heq2 & Hb2 & Hk2).
    assert (pairs_in_order (first_fields ++ others) form_fields = inl (KeyError k))
      as Hrun2; [|congruence].
    apply pairs_in_order_inl. exists b2, (a2 ++ others).
    split_and!; [|done..]. rewrite Heq2.
    by rewrite <- app_assoc.
Qed.

Lemma filter_all (P : string → Prop) `{!∀ x, Decision (P x)} (l : list string) :
  Forall P l → filter P l = l.
Proof.
  induction 1 as [|x l Hx Hl IH]; [done|].
  by rewrite filter_cons, decide_True, IH.
Qed.

Lemma filter_none (P : string → Prop) `{!∀ x, Decision (P x)} (l : list string) :
  Forall (λ x, ¬ P x) l → filter P l = [].
Proof.
  induction 1 as [|x l Hx Hl IH]; [done|].
  by rewrite filter_cons, decide_False, IH.
Qed.

(** Ordering the fields again changes nothing: [get_form_class] applied
    to the [base_fields] it produced returns them as they are. *)
Theorem get_form_class_idempotent (cif form_fields new : list (string * Field)) :
  NoDup (keys cif) → NoDup (keys form_fields) →
  get_form_class cif form_fields = inr new →
  get_form_class cif new = inr new.
Proof.
  unfold get_form_class, keys. intros Hcif Hform.
  set (first_fields := cif.*1) in *.
  set (others := filter (λ f, f ∉ first_fields) form_fields.*1).
  destruct (pairs_in_order (first_fields ++ others) form_fields) as [e|pairs] eqn:Hrun;
    [done|].
  intros [= <-].
  pose proof (pairs_in_order_keys _ _ _ Hrun) as Hkeys.
  assert (NoDup (first_fields ++ others)) as Hnd.
  { apply NoDup_app. split_and!; [done| |by apply NoDup_filter].
    intros k Hk Hk'. unfold others in Hk'.
    by apply list_elem_of_filter in Hk' as [? _]. }
  rewrite od_of_pairs_NoDup by (by rewrite Hkeys).
  rewrite Hkeys.
  assert (filter (λ f, f ∉ first_fields) (first_fields ++ others) = others) as ->.
  { rewrite filter_app, filter_none, filter_all; [done| |].
    - apply Forall_forall. intros x Hx. unfold others in Hx.
      by apply list_elem_of_filter in Hx as [? _].
    - apply Forall_forall. by intros x Hx ?. }
  rewrite <- Hkeys at 1.
  rewrite pairs_in_order_sublist.
  - rewrite od_of_pairs_NoDup; [done|]. by rewrite Hkeys.
  - by rewrite Hkeys.
  - apply Forall_forall. by intros x Hx.
Qed.

End formclass_more.

Lemma get_form_class_idempotent_witness :
  FormClass.get_form_class FormClass.content_item_form_fields
    [("polymorphic_ctype", 0%nat); ("placeholder", 2%nat);
     ("placeholder_slot", 4%nat); ("parent_item", 5%nat);
     ("parent_item_uid", 6%nat); ("sort_order", 7%nat);
     ("gist_id", 1%nat); ("filename", 3%nat)]
  = inr [("polymorphic_ctype", 0%nat); ("placeholder", 2%nat);
         ("placeholder_slot", 4%nat); ("parent_item", 5%nat);
         ("parent_item_uid", 6%nat); ("sort_order", 7%nat);
         ("gist_id", 1%nat); ("filename", 3%nat)].
Proof.
  apply (get_form_class_idempotent FormClass.content_item_form_fields
           FormClass.gist_form_fields); [compute_done|compute_done|reflexivity].
Defined.

Example get_form_class_missing_field :
  FormClass.get_form_class FormClass.content_item_form_fields
    [("polymorphic_ctype", 0%nat); ("gist_id", 1%nat); ("placeholder", 2%nat)]
  = inl (FormClass.KeyError "placeholder_slot").
Proof. reflexivity. Qed.

(** ** More on the inlines *)

Section inlines_more.
Import Inlines.

Lemma copy_fields_foldl p (names : list string) attrs0 :
  foldl (λ attrs name,
           if truthy (copy_field p name)
           then attrs ++ [(name, AObj (copy_field p name))]
           else attrs) attrs0 names
  = attrs0 ++ (copied_entry p
                <$> filter (λ name, truthy (copy_field p name) = true) names).
Proof.
  revert attrs0. induction names as [|n names IH]; intros attrs0.
  - by rewrite app_nil_r.
  - cbn [foldl]. rewrite IH, filter_cons.
    destruct (truthy (copy_field p n)) eqn:Ht.
    + rewrite decide_True by done. by rewrite fmap_cons, <- app_assoc.
    + by rewrite decide_False by done.
Qed.

(** The admin options of a plugin: the eight fixed entries, then one
    entry for each attribute of [COPY_FIELDS] that is truthy on the
    plugin, with the plugin's value; a falsy attribute is left out, so
    the default of the base class stays in force.  No name occurs
    twice. *)
Theorem admin_options_copy_truthy p :
  ∃ attrs,
    get_content_item_admin_options (Plugin p) = inr attrs ∧
    attrs.*1 = base_keys
               ++ filter (λ name, truthy (copy_field p name) = true) COPY_FIELDS ∧
    NoDup attrs.*1 ∧
    ∀ name, name ∈ COPY_FIELDS →
      if truthy (copy_field p name)
      then (name, AObj (copy_field p name)) ∈ attrs
      else name ∉ attrs.*1.
Proof.
  eexists. split; [reflexivity|]. unfold copy_fields. rewrite copy_fields_foldl.
  set (copied := filter (λ name, truthy (copy_field p name) = true) COPY_FIELDS).
  assert (∀ name, name ∈ copied ↔ truthy (copy_field p name) = true ∧ name ∈ COPY_FIELDS)
    as Hcopied by (intros name; unfold copied; by rewrite list_elem_of_filter).
  assert ((copied_entry p <$> copied).*1 = copied) as Hfst.
  { rewrite <- list_fmap_compose. apply list_fmap_id. }
  rewrite fmap_app, Hfst. split_and!; [done| |].
  - apply NoDup_app. split_and!.
    + compute_done.
    + intros k Hk Hk'. apply Hcopied in Hk' as [_ Hk'].
      revert Hk Hk'. unfold COPY_FIELDS. cbn [fmap list_fmap fst].
      rewrite !elem_of_cons, !elem_of_nil. intros Hk Hk'.
      repeat (destruct Hk as [->|Hk]; [repeat (destruct Hk' as [Hk'|Hk']; [done|]); done|]).
      done.
    + apply NoDup_filter. compute_done.
  - intros name Hname. destruct (truthy (copy_field p name)) eqn:Ht.
    + apply elem_of_app. right. apply list_elem_of_fmap. exists name.
      split; [done|]. by apply Hcopied.
    + rewrite elem_of_app. intros [Hin|Hin].
      * revert Hin Hname. unfold COPY_FIELDS. cbn [fmap list_fmap fst].
        rewrite !elem_of_cons, !elem_of_nil. intros Hk Hk'.
        repeat (destruct Hk as [->|Hk]; [repeat (destruct Hk' as [Hk'|Hk']; [done|]); done|]).
        done.
      * apply Hcopied in Hin as [Hin _]. congruence.
Qed.


Lemma make_child_inlines_inl plugins child_base e :
  make_child_inlines plugins child_base = inl e ↔
  ∃ before c after,
    plugins = as_candidates before ++ c :: after ∧
    (∀ p, c ≠ Plugin p) ∧
    create_inline_for_plugin c child_base = inl e.
Proof.
  induction plugins as [|c plugins IH]; cbn [make_child_inlines].
  - split; [done|]. intros (b & c & a & Heq & _). by destruct b.
  - destruct c as [p|o0|ty o0].
    + destruct (create_inline_for_plugin_Plugin p child_base) as (cl & -> & _).
      destruct (make_child_inlines plugins child_base) as [e'|cs].
      * split.
        -- intros [= ->]. destruct (proj1 IH eq_refl) as (b & c & a & -> & Hc & He).
           by exists (p :: b), c, a.
        -- intros (b & c & a & Heq & Hc & He). destruct b as [|q b].
           { injection Heq as <- _. by destruct (Hc p). }
           injection Heq as -> ->. apply IH. by exists b, c, a.
      * split; [done|]. intros (b & c & a & Heq & Hc & He). destruct b as [|q b].
        { injection Heq as <- _. by destruct (Hc p). }
        injection Heq as -> ->.
        assert (inr cs = inl e) as Hbad; [|done]. apply IH. by exists b, c, a.
    + split.
      * intros [= <-]. by exists [], (NotAPlugin o0), plugins.
      * intros (b & c & a & Heq & Hc & He). destruct b as [|q b]; [|done].
        injection Heq as <- ->. by rewrite He.
    + split.
      * intros [= <-]. by exists [], (Unhashable ty o0), plugins.
      * intros (b & c & a & Heq & Hc & He). destruct b as [|q b]; [|done].
        injection Heq as <- ->. by rewrite He.
Qed.

(** [get_content_item_inlines] raises [TypeError] exactly when the list
    (or the pool, when no list is given) holds something that is not a
    [ContentPlugin], and the first such object decides the message: an
    object without a hash is refused by the cache around
    [create_inline_for_plugin], with Python's message for its type; any
    other is refused by [get_content_item_admin_options], with a
    message that names the object.  No class is returned then. *)
Theorem get_content_item_inlines_TypeError pool given parent_base child_base e :
  get_content_item_inlines pool given parent_base child_base = inl e ↔
  ∃ before c after,
    default pool given = as_candidates before ++ c :: after ∧
    match c with
    | Plugin _ => False
    | NotAPlugin o =>
        e = TypeError ("get_content_item_inlines() expects to receive ContentPlugin instances, not "
                       +:+ repr o)
    | Unhashable ty _ => e = TypeError ("unhashable type: '" +:+ ty +:+ "'")
    end.
Proof.
  unfold get_content_item_inlines.
  replace (match given with Some l => l | None => pool end) with (default pool given)
    by (by destruct given).
  assert (make_child_inlines (default pool given) child_base = inl e ↔
          ∃ before c after,
            default pool given = as_candidates before ++ c :: after ∧
            match c with
            | Plugin _ => False
            | NotAPlugin o =>
                e = TypeError ("get_content_item_inlines() expects to receive ContentPlugin instances, not "
                               +:+ repr o)
            | Unhashable ty _ => e = TypeError ("unhashable type: '" +:+ ty +:+ "'")
            end) as Hiff.
  { rewrite make_child_inlines_inl. split.
    - intros (b & c & a & Heq & Hc & He). exists b, c, a. split; [done|].
      destruct c as [p|o|ty o]; [by destruct (Hc p)|..]; by injection He as <-.
    - intros (b & c & a & Heq & He). exists b, c, a. split; [done|].
      destruct c as [p|o|ty o]; [done|..]; by subst e. }
  rewrite <- Hiff.
  destruct (make_child_inlines (default pool given) child_base) as [e'|cs].
  - split; congruence.
  - split; done.
Qed.

(** The child admin and the child inline of a plugin carry the same
    admin options.  For a pool of plugins, [get_child_models] returns
    one pair per plugin, in order: the plugin's model, and a class named
    after the model on [ContentItemChildAdmin] whose dict is the dict of
    the inline that [create_inline_for_plugin] makes for that plugin. *)
Theorem get_child_models_same_options (pool : list ContentPlugin) base :
  ∃ results,
    get_child_models (as_candidates pool) = inr results ∧
    results.*1 = model <$> pool ∧
    Forall2 (λ p admin,
               class_name admin = model p +:+ "_ChildAdmin" ∧
               bases admin = [ContentItemChildAdmin] ∧
               ∃ inline, create_inline_for_plugin (Plugin p) base = inr inline ∧
                         attrs admin = attrs inline ∧
                         class_model admin = Some (model p) ∧
                         class_model inline = Some (model p))
            pool results.*2.
Proof.
  induction pool as [|p pool (results & Hrun & Hmodels & Hall)].
  - by exists [].
  - unfold as_candidates in *. rewrite fmap_cons. cbn [get_child_models].
    unfold create_admin_for_plugin at 1. cbn [get_content_item_admin_options].
    rewrite Hrun. eexists. split; [reflexivity|].
    rewrite !fmap_cons. cbn [fst snd]. split; [by rewrite Hmodels|].
    constructor; [|done]. cbn [class_name bases attrs].
    split_and!; [done..|]. eexists. split; [reflexivity|].
    cbn [attrs]. split_and!; [done| |].
    + unfold class_model, copy_fields. cbn [attrs]. rewrite copy_fields_foldl. done.
    + unfold class_model, copy_fields. cbn [attrs]. rewrite copy_fields_foldl. done.
Qed.


(** *** The lookup table of the parent inline *)

Lemma _child_inlines_lookup_snoc cs c :
  _child_inlines_lookup (cs ++ [c]) = <[class_model c := c]> (_child_inlines_lookup cs).
Proof. unfold _child_inlines_lookup. by rewrite foldl_snoc. Qed.

Lemma _child_inlines_lookup_last cs m :
  _child_inlines_lookup cs !! m = last (filter (λ c, class_model c = m) cs).
Proof.
  induction cs as [|c cs IH] using rev_ind; [done|].
  rewrite _child_inlines_lookup_snoc, filter_app, filter_cons, filter_nil.
  destruct (decide (class_model c = m)) as [<-|Hne].
  - by rewrite lookup_insert_eq, last_snoc.
  - by rewrite lookup_insert_ne, app_nil_r.
Qed.

Lemma last_filter_Some {A} (P : A → Prop) `{!∀ x, Decision (P x)} (l : list A) x :
  last (filter P l) = Some x ↔
  ∃ before after, l = before ++ x :: after ∧ P x ∧ Forall (λ y, ¬ P y) after.
Proof.
  induction l as [|y l IH] using rev_ind.
  - split; [done|]. intros (b & a & Heq & _). by destruct b.
  - rewrite filter_app, filter_cons, filter_nil.
    destruct (decide (P y)) as [Hy|Hy].
    + rewrite last_snoc. split.
      * intros [= ->]. exists l, []. by split_and!.
      * intros (b & a & Heq & Hx & Ha).
        destruct a as [|z a] using rev_ind.
        -- apply app_inj_tail in Heq as [_ ->]. done.
        -- rewrite app_comm_cons, app_assoc in Heq.
           apply app_inj_tail in Heq as [_ ->].
           apply Forall_app in Ha as [_ Hz]. rewrite Forall_singleton in Hz. done.
    + rewrite app_nil_r, IH. split.
      * intros (b & a & -> & Hx & Ha). exists b, (a ++ [y]).
        split_and!; [by rewrite <- app_assoc|done|].
        apply Forall_app. split; [done|by apply Forall_singleton].
      * intros (b & a & Heq & Hx & Ha).
        destruct a as [|z a _] using rev_ind.
        -- apply app_inj_tail in Heq as [_ ->]. done.
        -- rewrite app_comm_cons, app_assoc in Heq.
           apply app_inj_tail in Heq as [-> ->].
           apply Forall_app in Ha as [Ha _]. by exists b, a.
Qed.

Lemma get_child_inline_instance_finds_aux child_inlines m :
  (∃ msg, get_child_inline_instance child_inlines m = inl (ValueError msg)) ↔
  Forall (λ c, class_model c ≠ Some m) child_inlines.
Proof.
  unfold get_child_inline_instance. rewrite _child_inlines_lookup_last.
  destruct (last (filter _ child_inlines)) as [c0|] eqn:Hl.
  - split; [by intros [? ?]|]. intros Hall. exfalso.
    apply last_Some_elem_of, list_elem_of_filter in Hl as [Hm Hin].
    rewrite Forall_forall in Hall. by apply (Hall c0).
  - split; [|by eexists]. intros _. apply last_None in Hl.
    apply Forall_forall. intros c Hc Hm.
    by pose proof (filter_nil_not_elem_of (λ c, class_model c = Some m)
                     child_inlines c Hl Hm).
Qed.

(** [get_child_inline_instance(model)] returns the child inline for
    that model, the last one of [child_inlines] should several share the
    model, and raises [ValueError] exactly when no child inline has that
    model. *)
Theorem get_child_inline_instance_finds child_inlines m :
  (∀ c, get_child_inline_instance child_inlines m = inr c ↔
        ∃ before after, child_inlines = before ++ c :: after ∧
                        class_model c = Some m ∧
                        Forall (λ c', class_model c' ≠ Some m) after) ∧
  ((∃ msg, get_child_inline_instance child_inlines m = inl (ValueError msg)) ↔
   Forall (λ c, class_model c ≠ Some m) child_inlines).
Proof.
  unfold get_child_inline_instance. rewrite _child_inlines_lookup_last.
  destruct (last (filter _ child_inlines)) as [c0|] eqn:Hl.
  - split.
    + intros c. rewrite <- (last_filter_Some (λ c, class_model c = Some m)), Hl.
      split; congruence.
    + split; [by intros [? ?]|]. intros Hall. exfalso.
      apply last_Some_elem_of, list_elem_of_filter in Hl as [Hm Hin].
      rewrite Forall_forall in Hall. by apply (Hall c0).
  - split.
    + intros c. rewrite <- (last_filter_Some (λ c, class_model c = Some m)), Hl.
      split; congruence.
    + split; [|by eexists]. intros _. apply last_None in Hl.
      apply Forall_forall. intros c Hc Hm.
      by pose proof (filter_nil_not_elem_of (λ c, class_model c = Some m)
                       child_inlines c Hl Hm).
Qed.

Lemma Forall2_create_inline_model ps cs child_base :
  Forall2 (λ p c, create_inline_for_plugin (Plugin p) child_base = inr c) ps cs →
  Forall2 (λ p c, class_model c = Some (model p)) ps cs.
Proof.
  intros Hall. eapply Forall2_impl; [exact Hall|].
  intros p c [= <-]. unfold class_model, copy_fields. cbn [attrs].
  by rewrite copy_fields_foldl.
Qed.

(** Every plugin's model resolves.  On the parent inline that
    [get_content_item_inlines] makes for a list of plugins, the lookup
    for the model of any of these plugins returns a child inline that
    [create_inline_for_plugin] made for a plugin of the list with this
    model, and the lookup for any other model raises [ValueError]. *)
Theorem content_item_inlines_resolve
    (pool : list ContentPlugin) (given : option (list ContentPlugin))
    (parent_base child_base : string) :
  let ps := default pool given in
  ∃ parent,
    get_content_item_inlines (as_candidates pool) (as_candidates <$> given)
      parent_base child_base = inr [parent] ∧
    (∀ p, p ∈ ps →
       ∃ c p', get_child_inline_instance (child_inlines parent) (model p) = inr c ∧
               p' ∈ ps ∧ model p' = model p ∧
               create_inline_for_plugin (Plugin p') child_base = inr c) ∧
    (∀ m, m ∉ model <$> ps →
       ∃ msg, get_child_inline_instance (child_inlines parent) m = inl (ValueError msg)).
Proof.
  intros ps.
  destruct (make_child_inlines_plugins ps child_base) as (cs & Hcs & Hall).
  pose proof (Forall2_create_inline_model _ _ _ Hall) as Hmodels.
  exists (mkParent "ContentItemParentInline" [parent_base] ContentItem (as_candidates ps) cs).
  split_and!.
  - unfold get_content_item_inlines.
    replace (match as_candidates <$> given with Some l => l | None => as_candidates pool end)
      with (as_candidates ps) by (by destruct given).
    by rewrite Hcs.
  - intros p Hp. cbn [child_inlines].
    destruct (get_child_inline_instance cs (model p)) as [[msg]|c] eqn:Hget.
    + exfalso.
      assert (∃ msg, get_child_inline_instance cs (model p) = inl (ValueError msg))
        as Hraise by eauto.
      apply get_child_inline_instance_finds_aux in Hraise.
      apply list_elem_of_lookup in Hp as [i Hi].
      destruct (Forall2_lookup_l _ _ _ _ _ Hmodels Hi) as (c & Hc & Hm).
      rewrite Forall_forall in Hraise. apply (Hraise c); [|done].
      apply list_elem_of_lookup. eauto.
    + pose proof Hget as Hfound.
      unfold get_child_inline_instance in Hfound.
      rewrite _child_inlines_lookup_last in Hfound.
      destruct (last _) as [c'|] eqn:Hl; [|done]. injection Hfound as ->.
      apply last_Some_elem_of, list_elem_of_filter in Hl as [Hm Hin].
      apply list_elem_of_lookup in Hin as [i Hi].
      destruct (Forall2_lookup_r _ _ _ _ _ Hall Hi) as (p' & Hp' & Hmk).
      destruct (Forall2_lookup_r _ _ _ _ _ Hmodels Hi) as (p'' & Hp'' & Hm').
      assert (p'' = p') as -> by congruence.
      exists c, p'. split_and!; [done| |congruence|done].
      apply list_elem_of_lookup. eauto.
  - intros m Hm. cbn [child_inlines].
    apply get_child_inline_instance_finds_aux.
    apply Forall_forall. intros c Hc Hcm. apply Hm.
    apply list_elem_of_lookup in Hc as [i Hi].
    destruct (Forall2_lookup_r _ _ _ _ _ Hmodels Hi) as (p & Hp & Hpm).
    apply list_elem_of_fmap. exists p. split; [congruence|].
    apply list_elem_of_lookup. eauto.
Qed.

End inlines_more.

(** ** More on [PlaceholderData] *)

Section placeholderdata_more.
Import PlaceholderData.
Context (MAIN SIDEBAR RELATED : string) (ROLES : list (string * string)).
Context {Plugin : Type} (plugin_name : Plugin → string)
        (pool_get_allowed_plugins : option string → list Plugin).

Lemma py_or_idemp a b : truthy b → py_or (py_or a b) b = py_or a b.
Proof.
  intros Hb. unfold py_or. destruct (decide (truthy a)) as [Ha|Ha].
  - by rewrite decide_True.
  - by rewrite decide_True.
Qed.

Lemma py_or_None_idemp a : py_or (py_or a None) None = py_or a None.
Proof. unfold py_or. destruct (decide (truthy a)); [by rewrite decide_True|done]. Qed.

(** Export and rebuild.  When no role code of [Placeholder.ROLES] is
    read as an alias of another role or as a missing role, the fields
    that [as_dict] exports rebuild the object: the constructor accepts
    them and returns an object with the same fields.  The exported
    plugin names are those of the plugins the pool allows for the
    slot. *)
Theorem as_dict_rebuilds slot_in title_in role_in fallback_in pd :
  (∀ r, r ∈ ROLES.*1 → resolved_role MAIN SIDEBAR RELATED (Some r) = r) →
  __init__ MAIN SIDEBAR RELATED ROLES slot_in title_in role_in fallback_in = inr pd →
  let d := as_dict plugin_name pool_get_allowed_plugins pd in
  __init__ MAIN SIDEBAR RELATED ROLES
    (exported_slot d) (exported_title d) (Some (exported_role d))
    (exported_fallback_language d) = inr pd ∧
  exported_allowed_plugins d
  = plugin_name <$> pool_get_allowed_plugins slot_in.
Proof.
  intros Hcodes. unfold __init__.
  destruct (decide (truthy slot_in)) as [Hslot|]; [|done].
  rewrite aliases_get_resolved.
  destruct (decide (_ ∈ _ALLOWED_ROLES ROLES)) as [Hrole|]; [|done].
  intros [= <-]. cbn [as_dict get_allowed_plugins exported_slot exported_title
    exported_role exported_fallback_language exported_allowed_plugins
    PlaceholderData.slot PlaceholderData.title PlaceholderData.role
    PlaceholderData.fallback_language].
  split; [|done].
  rewrite decide_True by done. rewrite aliases_get_resolved.
  rewrite Hcodes by (by apply _ALLOWED_ROLES_elem_of).
  rewrite decide_True by done.
  by rewrite py_or_idemp, py_or_None_idemp.
Qed.

End placeholderdata_more.

Lemma sample_roles_codes r :
  r ∈ PlaceholderData.sample_roles.*1 →
  PlaceholderData.resolved_role "m" "s" "r" (Some r) = r.
Proof.
  cbn. rewrite !elem_of_cons, elem_of_nil. by intros [->|[->|[->|?]]].
Qed.

Lemma as_dict_rebuilds_witness :
  let pd := PlaceholderData.mkData (Some "main") (Some "main") "s" None in
  let d := PlaceholderData.as_dict (λ n : string, n) (λ _, ["TextPlugin"]) pd in
  PlaceholderData.__init__ "m" "s" "r" PlaceholderData.sample_roles
    (PlaceholderData.exported_slot d) (PlaceholderData.exported_title d)
    (Some (PlaceholderData.exported_role d))
    (PlaceholderData.exported_fallback_language d) = inr pd ∧
  PlaceholderData.exported_allowed_plugins d
  = (λ n : string, n) <$> (λ _ : option string, ["TextPlugin"]) (Some "main").
Proof.
  apply (as_dict_rebuilds "m" "s" "r" PlaceholderData.sample_roles
           (λ n : string, n) (λ _, ["TextPlugin"])
           (Some "main") None (Some "sidebar") None);
    [apply sample_roles_codes|reflexivity].
Defined.
